(** * sspp_subsample: subsampling related CSV files by object ID

    A shallow embedding of [sspp_subsample.py] and the verification of its
    two file-scan functions, [get_ids] and [copy_subset].

    Modelling conventions.
    - A Python [str] is a [string]; the comma is a single character, so
      splitting a UTF-8 encoded text at the byte [","] splits it at the
      same places as splitting the decoded text.
    - A Python [int] is a [Z].
    - A Python [set] of strings is a [gset string].  [copy_subset] receives
      the set object of its caller, so the model hands the set in and
      gives back the set as the call leaves it.
    - An open input file is the list of lines that iterating over it
      yields, each line keeping its terminator; [file_lines] computes that
      list from the text of the file.  An output file is the list of the
      strings written to it, [file_text] the text it then holds.
    - A function that can raise returns a [result].
    - A file on disk holds bytes, and the program opens its files in text
      mode: [universal_newlines] is what reading does to the line
      terminators of a file and [write_newlines] what writing does; whether
      a file can be opened and decoded is settled by the [world] and its
      [platform].

    Each function is embedded twice: as an executable function, the loop
    body applied to each line in turn, and as a step relation between
    program points.  The two are shown to agree.  The statements under
    [__main__] that follow the parsing of the arguments are embedded over a
    file system, see [main]. *)

From Stdlib Require Import ZArith Lia Ascii.
From stdpp Require Import base strings list gmap relations pretty.

Local Open Scope Z_scope.

(** ** Python primitives *)

Module Py.

(** The exceptions the modelled code can raise. *)
Inductive exn := IndexError.

Inductive result (A : Type) :=
| Ok (a : A)
| Raise (e : exn).
Arguments Ok {A} a.
Arguments Raise {A} e.

(** An exception raised by a statement ends the statements after it. *)
#[export] Instance result_bind : MBind result := λ A B k r,
  match r with
  | Ok a => k a
  | Raise e => Raise e
  end.

(** [s.split(sep)] for a one-character separator: the fields between the
    occurrences of [sep], in order.  The text after the last separator is
    a field too, also when it is empty. *)
Fixpoint split (sep : ascii) (s : string) : list string :=
  match s with
  | EmptyString => [EmptyString]
  | String c rest =>
      if Ascii.eqb c sep then EmptyString :: split sep rest
      else match split sep rest with
           | [] => [String c EmptyString]
           | field :: fields => String c field :: fields
           end
  end.

(** [l[i]] for a non-negative literal index [i]: out of range raises. *)
Definition index {A} (l : list A) (i : nat) : result A :=
  match l !! i with
  | Some a => Ok a
  | None => Raise IndexError
  end.

(** Iterating over a text file yields its lines, each with its
    terminating newline; only the last line can lack one. *)
Fixpoint file_lines (text : string) : list string :=
  match text with
  | EmptyString => []
  | String c rest =>
      if Ascii.eqb c "010" then String c EmptyString :: file_lines rest
      else match file_lines rest with
           | [] => [String c EmptyString]
           | line :: lines => String c line :: lines
           end
  end.

(** The text of a file to which [chunks] were written in order. *)
Definition file_text (chunks : list string) : string :=
  foldr String.append EmptyString chunks.

End Py.

Export Py.

(** ** [get_ids] *)

(** The local variables of [get_ids] that the loop updates. *)
Record get_ids_state := GetIds {
  gi_ids : gset string;
  gi_num_ids : Z;
}.

(** The outcome of one iteration of a loop whose body can [return]. *)
Inductive flow (S R : Type) :=
| Continue (s : S)
| Return (r : R).
Arguments Continue {S R} s.
Arguments Return {S R} r.

(** [for line in ifile: body]: runs [body] on each line in turn, stops at
    the first [return] or exception. *)
Fixpoint for_each {S R} (body : string → S → result (flow S R))
    (lines : list string) (s : S) : result (flow S R) :=
  match lines with
  | [] => Ok (Continue s)
  | line :: rest =>
      match body line s with
      | Ok (Continue s') => for_each body rest s'
      | stop => stop
      end
  end.

(** The [if num_ids == -1: ... else: ...] statement. *)
Definition get_ids_update (line : string) (s : get_ids_state)
    : result get_ids_state :=
  if gi_num_ids s =? -1 then
    (* Skip the header line. *)
    Ok (GetIds (gi_ids s) 0)
  else
    let split_line := split "," line in
    id ← index split_line 0 ;
    if decide (id ∉ gi_ids s) then
      Ok (GetIds ({[id]} ∪ gi_ids s) (gi_num_ids s + 1))
    else Ok s.

(** The body of the loop: the update, then the test for enough IDs. *)
Definition get_ids_body (num : Z) (line : string) (s : get_ids_state)
    : result (flow get_ids_state (gset string)) :=
  s' ← get_ids_update line s ;
  if gi_num_ids s' >=? num then Ok (Return (gi_ids s'))
  else Ok (Continue s').

(** The loop and the [return ids] after it, from state [s] with [lines]
    still to read: a [return] in the loop gives its value, a loop that
    reads every line falls through to the last statement. *)
Definition get_ids_from (s : get_ids_state) (lines : list string) (num : Z)
    : result (gset string) :=
  r ← for_each (get_ids_body num) lines s;
  match r with
  | Return ids => Ok ids
  | Continue s => Ok (gi_ids s)
  end.

(** [ids = set([])] and [num_ids = -1]. *)
Definition get_ids_init : get_ids_state := GetIds ∅ (-1).

(** [get_ids(input_file, num)], on the lines of the opened file. *)
Definition get_ids (ifile : list string) (num : Z) : result (gset string) :=
  get_ids_from get_ids_init ifile num.

(** ** [copy_subset] *)

(** What the loop of [copy_subset] can change: the lines written to
    [ofile] so far, the [header] flag, and the set object [ids] that the
    caller shares with it. *)
Record copy_state := Copy {
  cp_ofile : list string;
  cp_header : bool;
  cp_ids : gset string;
}.

(** [ofile.write(line)]. *)
Definition write (line : string) (s : copy_state) : copy_state :=
  Copy (cp_ofile s ++ [line]) (cp_header s) (cp_ids s).

(** The body of the loop.  In [header or split_line[0] in ids] the right
    operand is evaluated only when [header] is false.  The loop has no
    [return], so an iteration can only continue or raise. *)
Definition copy_subset_body (line : string) (s : copy_state)
    : result (flow copy_state Empty_set) :=
  let split_line := split "," line in
  keep ← (if cp_header s then Ok true
          else id ← index split_line 0 ; Ok (bool_decide (id ∈ cp_ids s))) ;
  let s' := if keep : bool then write line s else s in
  Ok (Continue (Copy (cp_ofile s') false (cp_ids s'))).

(** Opening [output_file] with mode ["w"] creates it or truncates it:
    whatever text it held before, if any, nothing is in it now. *)
Definition open_w (previous : option string) : list string := [].

(** [copy_subset(input_file, output_file, ids)] on the lines of the opened
    input file and the previous state of the output file; returns the
    lines written to the output file and the set [ids] as it is left. *)
Definition copy_subset (ifile : list string) (previous : option string)
    (ids : gset string) : result (list string * gset string) :=
  r ← for_each copy_subset_body ifile (Copy (open_w previous) true ids) ;
  match r with
  | Continue s => Ok (cp_ofile s, cp_ids s)
  | Return r => match r : Empty_set with end
  end.

(** ** The two loops as transition systems

    The same code once more, as a step relation between the program points
    of each function, with one rule for each path through the loop body.
    Nothing in these relations is computed from the functions above. *)

(** Program points of [get_ids]: the top of the loop with the lines not
    yet read, the test [if num_ids >= num], and the two ways to leave. *)
Inductive get_ids_config :=
| GiLoop (unread : list string) (ids : gset string) (num_ids : Z)
| GiTest (unread : list string) (ids : gset string) (num_ids : Z)
| GiReturned (ids : gset string)
| GiRaised (e : exn).

Inductive get_ids_step (num : Z) : relation get_ids_config :=
| gis_header line unread ids :
    get_ids_step num (GiLoop (line :: unread) ids (-1)) (GiTest unread ids 0)
| gis_new line unread ids num_ids id fields :
    num_ids ≠ -1 →
    split "," line = id :: fields →
    id ∉ ids →
    get_ids_step num (GiLoop (line :: unread) ids num_ids)
                     (GiTest unread ({[id]} ∪ ids) (num_ids + 1))
| gis_seen line unread ids num_ids id fields :
    num_ids ≠ -1 →
    split "," line = id :: fields →
    id ∈ ids →
    get_ids_step num (GiLoop (line :: unread) ids num_ids)
                     (GiTest unread ids num_ids)
| gis_no_field line unread ids num_ids :
    num_ids ≠ -1 →
    split "," line = [] →
    get_ids_step num (GiLoop (line :: unread) ids num_ids)
                     (GiRaised IndexError)
| gis_enough unread ids num_ids :
    num_ids >= num →
    get_ids_step num (GiTest unread ids num_ids) (GiReturned ids)
| gis_more unread ids num_ids :
    num_ids < num →
    get_ids_step num (GiTest unread ids num_ids) (GiLoop unread ids num_ids)
| gis_exhausted ids num_ids :
    get_ids_step num (GiLoop [] ids num_ids) (GiReturned ids).

Definition get_ids_start (ifile : list string) : get_ids_config :=
  GiLoop ifile ∅ (-1).

(** The configuration in which a call with result [r] has ended. *)
Definition get_ids_final (r : result (gset string)) : get_ids_config :=
  match r with
  | Ok ids => GiReturned ids
  | Raise e => GiRaised e
  end.

(** A run of [get_ids] from the call to the return of [ids]. *)
Definition get_ids_returns (ifile : list string) (num : Z) (ids : gset string)
    : Prop :=
  rtc (get_ids_step num) (get_ids_start ifile) (GiReturned ids).

(** Program points of [copy_subset]: the top of the loop, with the lines
    not yet read, the lines written so far, the [header] flag and the
    contents of the set object [ids]; and the two ways to leave.  The set
    object belongs to the caller and outlives the call, so every
    configuration holds it. *)
Inductive copy_config :=
| CpLoop (unread ofile : list string) (header : bool) (ids : gset string)
| CpDone (ofile : list string) (ids : gset string)
| CpRaised (e : exn) (ids : gset string).

Inductive copy_subset_step : relation copy_config :=
| cps_header line unread ofile ids :
    copy_subset_step (CpLoop (line :: unread) ofile true ids)
                     (CpLoop unread (ofile ++ [line]) false ids)
| cps_keep line unread ofile ids id fields :
    split "," line = id :: fields →
    id ∈ ids →
    copy_subset_step (CpLoop (line :: unread) ofile false ids)
                     (CpLoop unread (ofile ++ [line]) false ids)
| cps_drop line unread ofile ids id fields :
    split "," line = id :: fields →
    id ∉ ids →
    copy_subset_step (CpLoop (line :: unread) ofile false ids)
                     (CpLoop unread ofile false ids)
| cps_no_field line unread ofile ids :
    split "," line = [] →
    copy_subset_step (CpLoop (line :: unread) ofile false ids)
                     (CpRaised IndexError ids)
| cps_exhausted ofile header ids :
    copy_subset_step (CpLoop [] ofile header ids) (CpDone ofile ids).

Definition copy_subset_start (ifile : list string) (previous : option string)
    (ids : gset string) : copy_config :=
  CpLoop ifile (open_w previous) true ids.

(** A run of [copy_subset] from the call to its end, leaving [ofile] in
    the output file and [ids'] in the set. *)
Definition copy_subset_ends (ifile : list string) (previous : option string)
    (ids : gset string) (ofile : list string) (ids' : gset string) : Prop :=
  rtc copy_subset_step (copy_subset_start ifile previous ids)
      (CpDone ofile ids').

(** The set object as a configuration holds it, while the function runs
    or when it has ended. *)
Definition config_ids (c : copy_config) : gset string :=
  match c with
  | CpLoop _ _ _ ids | CpDone _ ids | CpRaised _ ids => ids
  end.

(** ** Specification vocabulary *)

(** The first comma-delimited field of a line: its text before the first
    comma, the whole line when it has none. *)
Fixpoint first_field (line : string) : string :=
  match line with
  | EmptyString => EmptyString
  | String c rest =>
      if Ascii.eqb c "," then EmptyString else String c (first_field rest)
  end.

(** The IDs of a list of data lines, as a set. *)
Definition ids_of (data : list string) : gset string :=
  list_to_set (first_field <$> data).

(** The number of distinct first fields among the data lines. *)
Definition distinct_ids (data : list string) : nat :=
  length (remove_dups (first_field <$> data)).

(** A line is retained by [copy_subset] when its first field is in [ids]. *)
Definition retained (ids : gset string) (line : string) : Prop :=
  first_field line ∈ ids.

#[export] Instance retained_dec ids line : Decision (retained ids line).
Proof. unfold retained. apply _. Defined.

(** The newline character, as a string. *)
Definition nl : string := String "010" EmptyString.

(** The file of the end-to-end scenario: the header [id,t,x,y,z] and four
    rows with IDs [A], [B], [A], [C], each with any payload. *)
Definition scenario_rows (pa pb pa' pc : string) : list string :=
  ["A," +:+ pa; "B," +:+ pb; "A," +:+ pa'; "C," +:+ pc].

Definition scenario_header : string := "id,t,x,y,z" +:+ nl.

Fixpoint no_newline (s : string) : bool :=
  match s with
  | EmptyString => true
  | String c rest => negb (Ascii.eqb c "010") && no_newline rest
  end.

(** A line of a text file: text without a newline followed by one, or
    text without a newline that is not empty. *)
Inductive line_shape : string → bool → Prop :=
| shape_terminated body :
    no_newline body = true → line_shape (body +:+ nl) true
| shape_open c body :
    no_newline (String c body) = true → line_shape (String c body) false.

(** The lines of a text file: every line but the last ends with a
    newline. *)
Inductive lines_wf : list string → Prop :=
| wf_nil : lines_wf []
| wf_last line terminated : line_shape line terminated → lines_wf [line]
| wf_cons line lines :
    line_shape line true → lines_wf lines → lines_wf (line :: lines).

(** The elements of [l] that are not in [seen], each once, in the order
    in which they first appear. *)
Fixpoint first_seen (seen : gset string) (l : list string) : list string :=
  match l with
  | [] => []
  | x :: l =>
      if decide (x ∈ seen) then first_seen seen l
      else x :: first_seen ({[x]} ∪ seen) l
  end.

(** The distinct IDs of the data lines, in the order in which the file
    first shows them. *)
Definition first_ids (data : list string) : list string :=
  first_seen ∅ (first_field <$> data).

(** ** Files as the program sees them

    A file holds bytes.  The program opens its files in text mode: what it
    reads is decoded, and every line terminator, CR LF, CR or LF, reaches
    it as one LF; what it writes has each LF stored as the line separator
    of the platform.  Text is kept as the bytes that encode it. *)

(** Reading: the line terminators of the file become ["\n"]. *)
Fixpoint universal_newlines (raw : string) : string :=
  match raw with
  | EmptyString => EmptyString
  | String c rest =>
      if Ascii.eqb c "013" then
        String "010"
          match rest with
          | EmptyString => EmptyString
          | String c' rest' =>
              if Ascii.eqb c' "010" then universal_newlines rest'
              else universal_newlines rest
          end
      else String c (universal_newlines rest)
  end.

(** Writing: ["\n"] is stored as [os.linesep], which is CR LF when [crlf]
    holds and LF otherwise. *)
Fixpoint write_newlines (crlf : bool) (text : string) : string :=
  match text with
  | EmptyString => EmptyString
  | String c rest =>
      if Ascii.eqb c "010" && crlf
      then String "013" (String "010" (write_newlines crlf rest))
      else String c (write_newlines crlf rest)
  end.

(** The lines of a file as its bytes have them, each with the terminator
    it has in the file: LF, CR LF or CR. *)
Fixpoint raw_lines (raw : string) : list string :=
  match raw with
  | EmptyString => []
  | String c rest =>
      if Ascii.eqb c "010" then String c EmptyString :: raw_lines rest
      else if Ascii.eqb c "013" then
        match rest with
        | EmptyString => [String c EmptyString]
        | String c' rest' =>
            if Ascii.eqb c' "010"
            then String c (String c' EmptyString) :: raw_lines rest'
            else String c EmptyString :: raw_lines rest
        end
      else match raw_lines rest with
           | [] => [String c EmptyString]
           | line :: lines => String c line :: lines
           end
  end.

(** What the platform settles: its line separator, and for the bytes of a
    file whether decoding them fails, and then after how many lines of the
    file have reached the program (this depends on the codec and on how
    the bytes are buffered). *)
Record platform := Platform {
  crlf : bool;
  decode_error : string → option nat;
}.

(** Iterating over a file opened for reading: the lines that reach the
    loop, and whether [UnicodeDecodeError] is raised after them instead of
    the end of the file.  The line with the bytes that do not decode never
    reaches the loop, so an error comes after a proper prefix of the
    lines. *)
Definition read_text (p : platform) (raw : string) : list string * bool :=
  let lines := file_lines (universal_newlines raw) in
  match decode_error p raw with
  | Some n =>
      if decide (n < length lines)%nat then (take n lines, true)
      else (lines, false)
  | None => (lines, false)
  end.

(** ** The command-line driver

    The driver names files, so it runs against a file system: the bytes of
    every file that exists, the paths that the operating system lets the
    program open for reading and for writing, the platform, and what was
    printed.  [print(ids)] is recorded as the set printed, not as the text
    that shows it. *)
Record world := World {
  files : gmap string string;
  readable : string → bool;
  writable : string → bool;
  os : platform;
  stdout : list (gset string);
}.

(** An exception that ends the program: [open(path, "r")] on a path that
    has no file or on a file the system refuses, [open(path, "w")] on a
    path the system refuses, bytes that do not decode, or an exception of
    the two functions above. *)
Inductive io_error :=
| FileNotFoundError (path : string)
| PermissionError (path : string)
| OSError (path : string)
| UnicodeDecodeError (path : string)
| Uncaught (e : exn).

Inductive outcome (A : Type) :=
| Returns (a : A)
| Raises (e : io_error).
Arguments Returns {A} a.
Arguments Raises {A} e.

(** A statement: it changes the world and returns or raises; what it did
    before it raised stays done. *)
Definition io (A : Type) : Type := world → world * outcome A.

#[export] Instance io_ret : MRet io := λ A a w, (w, Returns a).

#[export] Instance io_bind : MBind io := λ A B k m w,
  match m w with
  | (w', Returns a) => k a w'
  | (w', Raises e) => (w', Raises e)
  end.

Definition raise {A} (e : io_error) : io A := λ w, (w, Raises e).

Definition lift {A} (r : result A) : io A := λ w,
  match r with
  | Ok a => (w, Returns a)
  | Raise e => (w, Raises (Uncaught e))
  end.

(** The world with [fs] for its files. *)
Definition with_files (fs : gmap string string) (w : world) : world :=
  World fs (readable w) (writable w) (os w) (stdout w).

(** [open(path, "r")]: nothing is read yet. *)
Definition open_read (path : string) : io unit := λ w,
  match files w !! path with
  | Some _ =>
      if readable w path then (w, Returns ())
      else (w, Raises (PermissionError path))
  | None => (w, Raises (FileNotFoundError path))
  end.

(** [for line in ifile]: the lines that the file, as it is when the loop
    starts, gives to the loop, and whether they end with a decoding
    error. *)
Definition read_lines (path : string) : io (list string * bool) := λ w,
  (w, Returns (read_text (os w) (default EmptyString (files w !! path)))).

(** [open(path, "w")]: the file is created or truncated at once; gives
    what the path held before. *)
Definition open_write (path : string) : io (option string) := λ w,
  if writable w path then
    (with_files (<[path := EmptyString]> (files w)) w,
     Returns (files w !! path))
  else (w, Raises (OSError path)).

(** Leaving the [with] block of the output file, normally or by an
    exception: the file holds what was written. *)
Definition close_write (path : string) (ofile : list string) : io unit :=
  λ w,
  (with_files
     (<[path := write_newlines (crlf (os w)) (file_text ofile)]> (files w)) w,
   Returns ()).

Definition print (ids : gset string) : io unit := λ w,
  (World (files w) (readable w) (writable w) (os w) (stdout w ++ [ids]),
   Returns ()).

(** [get_ids] from the name of the file.  The loop runs on the lines that
    reach it; a [return] in the loop ends the call before a later
    decoding error can show, else the error is raised where the end of
    the file would have been. *)
Definition get_ids_on (input_file : string) (num : Z)
    (stream : list string * bool) : io (gset string) :=
  match for_each (get_ids_body num) stream.1 get_ids_init with
  | Ok (Return ids) => mret ids
  | Ok (Continue s) =>
      if stream.2 then raise (UnicodeDecodeError input_file)
      else mret (gi_ids s)
  | Raise e => raise (Uncaught e)
  end.

Definition get_ids_file (input_file : string) (num : Z) : io (gset string) :=
  _ ← open_read input_file;
  stream ← read_lines input_file;
  get_ids_on input_file num stream.

(** [copy_subset] from the names of the files: the input is opened
    first, then the output, and only then does the loop read the input.
    A decoding error ends the loop after the lines that reached it; the
    output file is closed with what was written for them.  Gives the set
    as the call leaves it. *)
Definition copy_subset_file (input_file output_file : string)
    (ids : gset string) : io (gset string) :=
  _ ← open_read input_file;
  previous ← open_write output_file;
  stream ← read_lines input_file;
  r ← lift (copy_subset stream.1 previous ids);
  _ ← close_write output_file r.1;
  if stream.2 : bool then raise (UnicodeDecodeError input_file)
  else mret r.2.

(** [f"{args.input_prefix}_eph.csv"] and the like; [pretty] writes an
    integer as [str] does, in decimal with a [-] for a negative one. *)
Definition eph_in (input_prefix : string) : string :=
  input_prefix +:+ "_eph.csv".
Definition orbit_in (input_prefix : string) : string :=
  input_prefix +:+ "_orbit.csv".
Definition physical_in (input_prefix : string) : string :=
  input_prefix +:+ "_physical.csv".
Definition eph_out (input_prefix : string) (num : Z) : string :=
  input_prefix +:+ "_" +:+ pretty num +:+ "_eph.csv".
Definition orbit_out (input_prefix : string) (num : Z) : string :=
  input_prefix +:+ "_" +:+ pretty num +:+ "_orbit.csv".
Definition physical_out (input_prefix : string) (num : Z) : string :=
  input_prefix +:+ "_" +:+ pretty num +:+ "_physical.csv".

(** The statements under [if __name__ == "__main__"], after the
    arguments are parsed. *)
Definition main (input_prefix : string) (num : Z) : io unit :=
  (* Get the first 'num' ids. *)
  ids ← get_ids_file (eph_in input_prefix) num;
  _ ← print ids;
  (* Copy the necessary files. *)
  ids ← copy_subset_file (eph_in input_prefix) (eph_out input_prefix num) ids;
  ids ← copy_subset_file (orbit_in input_prefix) (orbit_out input_prefix num)
          ids;
  _ ← copy_subset_file (physical_in input_prefix)
        (physical_out input_prefix num) ids;
  mret ().

(** The files the driver reads and the files it writes. *)
Definition input_names (input_prefix : string) : list string :=
  [eph_in input_prefix; orbit_in input_prefix; physical_in input_prefix].

Definition output_names (input_prefix : string) (num : Z) : list string :=
  [eph_out input_prefix num; orbit_out input_prefix num;
   physical_out input_prefix num].

(** The file at [path] exists, can be opened for reading and is read to
    its end without a decoding error: the loop gets the lines [ifile]. *)
Definition reads (w : world) (path : string) (ifile : list string) : Prop :=
  ∃ raw, files w !! path = Some raw ∧ readable w path = true ∧
         read_text (os w) raw = (ifile, false).

(** The IDs [get_ids] collects from the lines [ifile]. *)
Definition collected (num : Z) (ifile : list string) : gset string :=
  list_to_set (take (Z.to_nat num) (first_ids (tail ifile))).

(** The lines [copy_subset] writes for the lines [ifile]: the first line
    and the later lines whose ID is in [ids]. *)
Definition kept (ids : gset string) (ifile : list string) : list string :=
  take 1 ifile ++ filter (retained ids) (tail ifile).

(** The bytes an output file holds in the world [w] when [ofile] was
    written to it. *)
Definition written (w : world) (ofile : list string) : string :=
  write_newlines (crlf (os w)) (file_text ofile).

(** Two worlds that a program reading only the files [ins] cannot tell
    apart: they hold the same bytes at these paths, let the program read
    the same ones of them and write the same paths, and are on the same
    platform. *)
Definition same_inputs (ins : list string) (w1 w2 : world) : Prop :=
  (∀ path, path ∈ ins → files w1 !! path = files w2 !! path) ∧
  (∀ path, path ∈ ins → readable w1 path = readable w2 path) ∧
  (∀ path, writable w1 path = writable w2 path) ∧
  os w1 = os w2.

(** A statement that reads only the files [ins] and writes only the files
    [outs]: from all worlds with the same inputs it writes the same bytes
    [delta] to the same paths among [outs], prints the same and ends the
    same way, and it leaves everything else as it is. *)
Definition confined {A} (ins outs : list string) (m : io A) : Prop :=
  ∀ w, ∃ (delta : gmap string string) (printed : list (gset string))
         (r : outcome A),
    (∀ path, is_Some (delta !! path) → path ∈ outs) ∧
    ∀ w', same_inputs ins w w' →
      m w' = (World (delta ∪ files w') (readable w') (writable w') (os w')
                    (stdout w' ++ printed),
              r).

(** A platform with LF for its line separator and a codec that decodes
    every file. *)
Definition posix : platform := Platform false (λ _, None).

(** A small file system to run the driver in: three input files with
    prefix [s], one other file, every path readable and writable, nothing
    printed. *)
Definition sample_eph : string :=
  "id,t" +:+ nl +:+ "A,1" +:+ nl +:+ "B,2" +:+ nl +:+ "A,3" +:+ nl.
Definition sample_orbit : string :=
  "id,a,e" +:+ nl +:+ "B,2,0" +:+ nl +:+ "A,1,0" +:+ nl.
Definition sample_physical : string :=
  "id,H" +:+ nl +:+ "A,15" +:+ nl +:+ "C,17" +:+ nl.

Definition sample_world : world :=
  World (<["s_eph.csv" := sample_eph]>
           (<["s_orbit.csv" := sample_orbit]>
              (<["s_physical.csv" := sample_physical]>
                 {["notes.txt" := "keep"]})))
        (λ _, true) (λ _, true) posix [].

(** A file with CR LF line terminators, on that platform. *)
Definition crlf_file : string :=
  "id,t" +:+ String "013" nl +:+ "A,1" +:+ String "013" nl.

Definition crlf_world : world :=
  World {["in.csv" := crlf_file]} (λ _, true) (λ _, true) posix [].

(** Whether a text holds no CR. *)
Fixpoint no_cr (text : string) : bool :=
  match text with
  | EmptyString => true
  | String c rest => negb (Ascii.eqb c "013") && no_cr rest
  end.

(** Whether a text is empty or ends with a newline, so that text added
    after it starts a new line. *)
Fixpoint ends_lines (text : string) : bool :=
  match text with
  | EmptyString => true
  | String c rest =>
      match rest with
      | EmptyString => Ascii.eqb c "010"
      | String _ _ => ends_lines rest
      end
  end.

(** ** Strings *)

Lemma append_cons c (s t : string) : String c s +:+ t = String c (s +:+ t).
Proof. reflexivity. Qed.

Lemma append_nil_r (s : string) : s +:+ EmptyString = s.
Proof.
  induction s as [|c s IH]; [done|]. by rewrite append_cons, IH.
Qed.

(** ** Splitting *)

Section split_facts.
Context (sep : ascii).
Implicit Types s : string.

Lemma split_nonempty s : split sep s ≠ [].
Proof.
  destruct s as [|c rest]; simpl; [done|].
  destruct (Ascii.eqb c sep); [done|].
  by destruct (split sep rest).
Qed.

Lemma split_empty : split sep EmptyString = [EmptyString].
Proof. reflexivity. Qed.

(** Without a separator the whole string is the only field. *)
Lemma split_no_sep s :
  (∀ c, c ∈ String.list_ascii_of_string s → c ≠ sep) → split sep s = [s].
Proof.
  induction s as [|c rest IH]; simpl; intros Hno; [done|].
  destruct (Ascii.eqb_spec c sep) as [->|_].
  - exfalso. eapply Hno; [|done]. left.
  - rewrite IH; [done|]. intros c' Hc'. apply Hno. by right.
Qed.

(** Joining the fields with the separator gives the string back. *)
Lemma split_join s :
  String.concat (String sep EmptyString) (split sep s) = s.
Proof.
  induction s as [|c rest IH]; simpl; [done|].
  pose proof (split_nonempty rest) as Hne.
  destruct (Ascii.eqb_spec c sep) as [->|_];
    destruct (split sep rest) as [|f fs]; try done.
  - change (String sep (String.concat (String sep EmptyString) (f :: fs))
            = String sep rest).
    by rewrite IH.
  - destruct fs as [|f' fs]; [simpl in *; congruence|].
    change (String c (String.concat (String sep EmptyString) (f :: f' :: fs))
            = String c rest).
    by rewrite IH.
Qed.

(** No field holds the separator. *)
Lemma split_fields_no_sep s :
  Forall (λ field, sep ∉ String.list_ascii_of_string field) (split sep s).
Proof.
  induction s as [|c rest IH]; simpl.
  - repeat constructor. apply not_elem_of_nil.
  - destruct (Ascii.eqb_spec c sep) as [->|Hc].
    + constructor; [apply not_elem_of_nil | done].
    + destruct (split sep rest) as [|field fields]; simpl.
      * repeat constructor. by intros [->|?%elem_of_nil]%elem_of_cons.
      * inversion IH as [|?? Hfield Hfields]; subst.
        constructor; [|done]. by intros [->|?]%elem_of_cons.
Qed.
End split_facts.

Lemma split_first_field line :
  split "," line !! 0%nat = Some (first_field line).
Proof.
  induction line as [|c rest IH]; simpl; [done|].
  destruct (Ascii.eqb c ","); [done|].
  destruct (split "," rest); [done|].
  simpl in *. congruence.
Qed.

Lemma split_cons_first line :
  ∃ fields, split "," line = first_field line :: fields.
Proof.
  pose proof (split_first_field line) as H.
  destruct (split "," line) as [|f fields]; [done|].
  exists fields. simpl in H. congruence.
Qed.

(** [first_field] is the text before the first comma: it holds no comma
    and is the whole line or is followed by a comma in it. *)
Lemma first_field_no_comma line :
  ("," : ascii) ∉ String.list_ascii_of_string (first_field line).
Proof.
  pose proof (split_fields_no_sep "," line) as Hall.
  destruct (split_cons_first line) as [fields Hsplit].
  rewrite Hsplit in Hall. by inversion Hall.
Qed.

Lemma first_field_prefix line :
  line = first_field line ∨
  ∃ rest, line = first_field line +:+ String "," rest.
Proof.
  induction line as [|c line IH]; simpl; [by left|].
  destruct (Ascii.eqb_spec c ",") as [->|_].
  - right. by exists line.
  - destruct IH as [IH|[rest IH]].
    + left. by rewrite <- IH.
    + right. exists rest. by rewrite append_cons, <- IH.
Qed.

Lemma index_split line : index (split "," line) 0 = Ok (first_field line).
Proof. unfold index. by rewrite split_first_field. Qed.

(** ** The loop of [get_ids] *)

Lemma get_ids_unfold ifile num :
  get_ids ifile num = get_ids_from get_ids_init ifile num.
Proof. reflexivity. Qed.

Lemma get_ids_from_nil s num : get_ids_from s [] num = Ok (gi_ids s).
Proof. reflexivity. Qed.

(** The header line: nothing is collected, and the test for enough IDs
    is made with a count of zero. *)
Lemma get_ids_body_header num line ids :
  get_ids_body num line (GetIds ids (-1)) =
    if 0 >=? num then Ok (Return ids) else Ok (Continue (GetIds ids 0)).
Proof. reflexivity. Qed.

(** A data line. *)
Lemma get_ids_body_data num line ids n :
  n ≠ -1 →
  get_ids_body num line (GetIds ids n) =
    if decide (first_field line ∉ ids) then
      if n + 1 >=? num then Ok (Return ({[first_field line]} ∪ ids))
      else Ok (Continue (GetIds ({[first_field line]} ∪ ids) (n + 1)))
    else
      if n >=? num then Ok (Return ids) else Ok (Continue (GetIds ids n)).
Proof.
  intros Hn. unfold get_ids_body, get_ids_update. simpl.
  destruct (Z.eqb_spec n (-1)) as [|_]; [done|].
  rewrite index_split. simpl.
  by destruct (decide (first_field line ∉ ids)).
Qed.

Lemma get_ids_from_header num line rest ids :
  get_ids_from (GetIds ids (-1)) (line :: rest) num =
    if 0 >=? num then Ok ids else get_ids_from (GetIds ids 0) rest num.
Proof.
  unfold get_ids_from. simpl for_each. rewrite get_ids_body_header.
  by destruct (0 >=? num).
Qed.

Lemma get_ids_from_data num line rest ids n :
  n ≠ -1 →
  get_ids_from (GetIds ids n) (line :: rest) num =
    if decide (first_field line ∉ ids) then
      if n + 1 >=? num then Ok ({[first_field line]} ∪ ids)
      else get_ids_from (GetIds ({[first_field line]} ∪ ids) (n + 1)) rest num
    else
      if n >=? num then Ok ids else get_ids_from (GetIds ids n) rest num.
Proof.
  intros Hn. unfold get_ids_from. simpl for_each.
  rewrite get_ids_body_data by done.
  destruct (decide _); [by destruct (n + 1 >=? num) | by destruct (n >=? num)].
Qed.

Lemma ids_of_nil : ids_of [] = ∅.
Proof. reflexivity. Qed.

Lemma ids_of_cons line data :
  ids_of (line :: data) = {[first_field line]} ∪ ids_of data.
Proof. reflexivity. Qed.

Lemma ids_of_app data1 data2 :
  ids_of (data1 ++ data2) = ids_of data1 ∪ ids_of data2.
Proof.
  unfold ids_of. rewrite fmap_app. apply leibniz_equiv, list_to_set_app.
Qed.

Lemma distinct_ids_size data : distinct_ids data = size (ids_of data).
Proof.
  unfold distinct_ids, ids_of.
  rewrite <- (size_list_to_set (C := gset string) (remove_dups _))
    by apply NoDup_remove_dups.
  f_equal. apply leibniz_equiv. intros x.
  by rewrite !elem_of_list_to_set, elem_of_remove_dups.
Qed.

(** The invariant of the loop once the header is read: the counter is the
    size of the set, and below the target.  From such a state the loop
    returns the IDs of the shortest prefix of the remaining lines that
    brings the set to [num] elements, or of all of them. *)
Lemma get_ids_from_spec data : ∀ (ids : gset string) (num : Z),
  Z.of_nat (size ids) < num →
  ∃ read unread,
    data = read ++ unread ∧
    get_ids_from (GetIds ids (Z.of_nat (size ids))) data num
      = Ok (ids ∪ ids_of read) ∧
    (Z.of_nat (size (ids ∪ ids_of read)) = num ∨
     (unread = [] ∧ Z.of_nat (size (ids ∪ ids_of read)) < num)).
Proof.
  induction data as [|line rest IH]; intros ids num Hlt.
  - exists [], []. rewrite get_ids_from_nil, ids_of_nil. simpl.
    rewrite (right_id_L ∅ (∪)). auto.
  - rewrite get_ids_from_data by lia.
    destruct (decide (first_field line ∉ ids)) as [Hnew|Hold].
    + assert (size ({[first_field line]} ∪ ids) = S (size ids)) as Hsize.
      { rewrite size_union by set_solver. by rewrite size_singleton. }
      destruct (Z.geb_spec (Z.of_nat (size ids) + 1) num) as [Hge|Hlt'].
      * exists [line], rest. rewrite ids_of_cons, ids_of_nil.
        rewrite (right_id_L ∅ (∪)), (comm_L (∪) ids).
        split_and!; [done..|]. left. lia.
      * destruct (IH ({[first_field line]} ∪ ids) num)
          as (read & unread & -> & Hrun & Hstop); [lia|].
        exists (line :: read), unread. rewrite ids_of_cons.
        rewrite (assoc_L (∪) ids), (comm_L (∪) ids).
        split_and!; [done| |done].
        rewrite <- Hrun. f_equal. f_equal. lia.
    + apply dec_stable in Hold.
      destruct (Z.geb_spec (Z.of_nat (size ids)) num) as [Hge|_]; [lia|].
      destruct (IH ids num) as (read & unread & -> & Hrun & Hstop); [lia|].
      exists (line :: read), unread. rewrite ids_of_cons.
      rewrite (assoc_L (∪) ids), (comm_L (∪) ids).
      rewrite (subseteq_union_1_L {[first_field line]} ids)
        by by apply elem_of_subseteq_singleton.
      by split_and!.
Qed.

(** ** The loop of [copy_subset] *)

(** The first line is written whatever it holds and whatever [ids] holds. *)
Lemma copy_subset_body_header line ofile ids :
  copy_subset_body line (Copy ofile true ids)
    = Ok (Continue (Copy (ofile ++ [line]) false ids)).
Proof. reflexivity. Qed.

(** A later line is written when its first field is in [ids]. *)
Lemma copy_subset_body_data line ofile ids :
  copy_subset_body line (Copy ofile false ids)
    = Ok (Continue (Copy (ofile ++ filter (retained ids) [line]) false ids)).
Proof.
  unfold copy_subset_body. simpl. rewrite index_split. simpl.
  rewrite filter_cons, filter_nil. unfold retained at 1.
  destruct (decide (first_field line ∈ ids)) as [Hin|Hout].
  - by rewrite bool_decide_eq_true_2.
  - rewrite bool_decide_eq_false_2 by done. simpl. by rewrite app_nil_r.
Qed.

Lemma for_each_copy_data data : ∀ ofile ids,
  for_each copy_subset_body data (Copy ofile false ids)
    = Ok (Continue (Copy (ofile ++ filter (retained ids) data) false ids)).
Proof.
  induction data as [|line rest IH]; intros ofile ids.
  - simpl. by rewrite filter_nil, app_nil_r.
  - simpl for_each. rewrite copy_subset_body_data, IH.
    by rewrite <- app_assoc, <- filter_app.
Qed.

Lemma copy_subset_nil previous ids : copy_subset [] previous ids = Ok ([], ids).
Proof. reflexivity. Qed.

Lemma copy_subset_cons header data previous ids :
  copy_subset (header :: data) previous ids
    = Ok (header :: filter (retained ids) data, ids).
Proof.
  unfold copy_subset. simpl for_each.
  rewrite for_each_copy_data. reflexivity.
Qed.

(** ** Text files and their lines *)

Lemma file_text_nil : file_text [] = EmptyString.
Proof. reflexivity. Qed.

Lemma file_text_cons line lines :
  file_text (line :: lines) = line +:+ file_text lines.
Proof. reflexivity. Qed.

(** Reading a file loses nothing: its lines, put end to end, are its text. *)
Lemma file_text_lines text : file_text (file_lines text) = text.
Proof.
  induction text as [|c rest IH]; simpl; [done|].
  destruct (Ascii.eqb c "010"); simpl; [by rewrite IH|].
  destruct (file_lines rest) as [|line lines]; simpl in *; by rewrite <- IH.
Qed.

Lemma file_lines_nil_inv text : file_lines text = [] → text = EmptyString.
Proof. intros H. by rewrite <- (file_text_lines text), H. Qed.

Lemma line_shape_cons c line t :
  Ascii.eqb c "010" = false → line_shape line t → line_shape (String c line) t.
Proof.
  intros Hc [body Hbody|c' body Hbody].
  - apply (shape_terminated (String c body)). simpl. by rewrite Hc, Hbody.
  - apply shape_open. simpl in *. by rewrite Hc.
Qed.

Lemma lines_wf_cons_char c line lines :
  Ascii.eqb c "010" = false →
  lines_wf (line :: lines) → lines_wf (String c line :: lines).
Proof.
  intros Hc Hwf. inversion Hwf as [|? t Hs|? ? Hs Hrest]; subst.
  - eapply wf_last, line_shape_cons; eauto.
  - apply wf_cons; [by apply line_shape_cons | done].
Qed.

Lemma file_lines_wf text : lines_wf (file_lines text).
Proof.
  induction text as [|c rest IH]; simpl; [constructor|].
  destruct (Ascii.eqb c "010") eqn:Hc.
  - apply Ascii.eqb_eq in Hc as ->.
    pose proof (shape_terminated EmptyString eq_refl) as Hs.
    destruct (file_lines rest) as [|line lines] eqn:E.
    + eapply wf_last, Hs.
    + by apply wf_cons.
  - destruct (file_lines rest) as [|line lines].
    + apply (wf_last _ false), shape_open. simpl. by rewrite Hc.
    + by apply lines_wf_cons_char.
Qed.

Lemma lines_wf_filter (P : string → Prop) `{!∀ x, Decision (P x)} lines :
  lines_wf lines → lines_wf (filter P lines).
Proof.
  induction 1 as [|line t Hs|line lines Hs Hwf IH].
  - constructor.
  - rewrite filter_cons, filter_nil. destruct (decide (P line)).
    + by eapply wf_last.
    + constructor.
  - rewrite filter_cons. destruct (decide (P line)); [by apply wf_cons | done].
Qed.

Lemma lines_wf_header_filter (P : string → Prop) `{!∀ x, Decision (P x)}
    header data :
  lines_wf (header :: data) → lines_wf (header :: filter P data).
Proof.
  inversion 1 as [|? t Hs|? ? Hs Hwf]; subst.
  - rewrite filter_nil. by eapply wf_last.
  - apply wf_cons; [done | by apply lines_wf_filter].
Qed.

Lemma file_lines_terminated body text :
  no_newline body = true →
  file_lines ((body +:+ nl) +:+ text) = (body +:+ nl) :: file_lines text.
Proof.
  induction body as [|c body IH]; simpl; intros Hb; [done|].
  apply andb_prop in Hb as [Hc Hb]. apply negb_true_iff in Hc.
  rewrite !append_cons. simpl. by rewrite Hc, IH.
Qed.

Lemma file_lines_open c body :
  no_newline (String c body) = true →
  file_lines (String c body) = [String c body].
Proof.
  revert c. induction body as [|c' body IH]; intros c Hb.
  - simpl in *. by destruct (Ascii.eqb c "010").
  - change (no_newline (String c (String c' body)))
      with (negb (Ascii.eqb c "010") && no_newline (String c' body)) in Hb.
    apply andb_prop in Hb as [Hc Hb]. apply negb_true_iff in Hc.
    change (file_lines (String c (String c' body)))
      with (if Ascii.eqb c "010"
            then String c EmptyString :: file_lines (String c' body)
            else match file_lines (String c' body) with
                 | [] => [String c EmptyString]
                 | line :: lines => String c line :: lines
                 end).
    by rewrite Hc, IH.
Qed.

(** Writing well-formed lines and reading the file again gives them back. *)
Lemma file_lines_text lines :
  lines_wf lines → file_lines (file_text lines) = lines.
Proof.
  induction 1 as [|line t Hs|line lines Hs Hwf IH].
  - reflexivity.
  - rewrite file_text_cons, file_text_nil.
    destruct Hs as [body Hb|c body Hb].
    + by rewrite file_lines_terminated.
    + rewrite append_nil_r. by apply file_lines_open.
  - rewrite file_text_cons. inversion Hs as [body Hb|]; subst.
    by rewrite file_lines_terminated, IH.
Qed.

(** ** No iteration raises *)

Lemma get_ids_body_total num line s : ∃ r, get_ids_body num line s = Ok r.
Proof.
  unfold get_ids_body, get_ids_update.
  destruct (gi_num_ids s =? -1); simpl.
  - destruct (0 >=? num); eauto.
  - rewrite index_split. simpl.
    destruct (decide (first_field line ∉ gi_ids s)); simpl;
      match goal with |- context [if ?b then _ else _] => destruct b end; eauto.
Qed.

Lemma copy_subset_body_total line s : ∃ r, copy_subset_body line s = Ok r.
Proof.
  destruct s as [ofile [] ids].
  - rewrite copy_subset_body_header. eauto.
  - rewrite copy_subset_body_data. eauto.
Qed.

(** A loop whose body never raises does not raise. *)
Lemma for_each_total {S R} (body : string → S → result (flow S R)) :
  (∀ line s, ∃ r, body line s = Ok r) →
  ∀ lines s, ∃ r, for_each body lines s = Ok r.
Proof.
  intros Hbody lines. induction lines as [|line rest IH]; intros s; simpl.
  - eauto.
  - destruct (Hbody line s) as [[s'|r] ->]; eauto.
Qed.

Lemma get_ids_total ifile num : ∃ ids, get_ids ifile num = Ok ids.
Proof.
  unfold get_ids, get_ids_from.
  destruct (for_each_total (get_ids_body num) (get_ids_body_total num)
              ifile get_ids_init) as [[s|ids] ->]; simpl; eauto.
Qed.

(** ** The transition systems *)

(** Two runs of a deterministic system that both end, end alike. *)
Lemma rtc_deterministic_nf {A} (R : relation A) x y z :
  deterministic R → rtc R x y → rtc R x z → nf R y → nf R z → y = z.
Proof.
  intros Hdet Hy. revert z.
  induction Hy as [x|x x' y Hstep Hy IH]; intros z Hz Hnfy Hnfz.
  - by apply (rtc_nf (R:=R)).
  - apply rtc_inv in Hz as [<-|(x'' & Hstep' & Hz)].
    + destruct Hnfz. by exists x'.
    + rewrite <- (Hdet _ _ _ Hstep Hstep') in Hz. by apply IH.
Qed.

Lemma get_ids_step_deterministic num : deterministic (get_ids_step num).
Proof.
  intros c c1 c2 H1 H2.
  inversion H1; subst; inversion H2; subst;
    try done; try congruence; try lia.
Qed.

Lemma get_ids_returned_nf num ids : nf (get_ids_step num) (GiReturned ids).
Proof. intros [c H]. inversion H. Qed.

Lemma get_ids_raised_nf num e : nf (get_ids_step num) (GiRaised e).
Proof. intros [c H]. inversion H. Qed.

Lemma get_ids_final_nf num r : nf (get_ids_step num) (get_ids_final r).
Proof. destruct r; [apply get_ids_returned_nf | apply get_ids_raised_nf]. Qed.

(** After the update of an iteration: the test either returns or goes
    back to the top of the loop, where [IH] takes over. *)
Ltac get_ids_test IH :=
  match goal with
  | |- context [?n >=? ?num] => destruct (Z.geb_spec n num)
  end;
  [ apply rtc_once; constructor; lia
  | eapply rtc_l; [apply gis_more; lia | apply IH] ].

(** The function computes a run of the transition system. *)
Lemma get_ids_from_run num lines : ∀ ids n,
  rtc (get_ids_step num) (GiLoop lines ids n)
      (get_ids_final (get_ids_from (GetIds ids n) lines num)).
Proof.
  induction lines as [|line rest IH]; intros ids n.
  - rewrite get_ids_from_nil. apply rtc_once. constructor.
  - destruct (decide (n = -1)) as [->|Hn].
    + rewrite get_ids_from_header.
      eapply rtc_l; [apply gis_header|]. get_ids_test IH.
    + rewrite get_ids_from_data by done.
      destruct (split_cons_first line) as [fields Hsplit].
      destruct (decide (first_field line ∉ ids)) as [Hnew|Hseen].
      * eapply rtc_l; [by eapply gis_new|]. get_ids_test IH.
      * apply dec_stable in Hseen.
        eapply rtc_l; [by eapply gis_seen|]. get_ids_test IH.
Qed.

(** The runs of the transition system that return are those the function
    computes. *)
Lemma get_ids_returns_iff ifile num ids :
  get_ids_returns ifile num ids ↔ get_ids ifile num = Ok ids.
Proof.
  unfold get_ids_returns, get_ids_start. rewrite get_ids_unfold.
  pose proof (get_ids_from_run num ifile ∅ (-1)) as Hrun.
  split.
  - intros Hret.
    pose proof (rtc_deterministic_nf _ _ _ _
      (get_ids_step_deterministic num) Hret Hrun
      (get_ids_returned_nf num ids) (get_ids_final_nf num _)) as Heq.
    by destruct (get_ids_from _ _ _); inversion Heq.
  - intros Heq. fold get_ids_init in Hrun. by rewrite Heq in Hrun.
Qed.

Lemma get_ids_never_raised ifile num e :
  ¬ rtc (get_ids_step num) (get_ids_start ifile) (GiRaised e).
Proof.
  intros Hraised.
  destruct (get_ids_total ifile num) as [ids Hfun].
  apply get_ids_returns_iff in Hfun.
  pose proof (rtc_deterministic_nf _ _ _ _
    (get_ids_step_deterministic num) Hraised Hfun
    (get_ids_raised_nf num e) (get_ids_returned_nf num ids)) as Heq.
  discriminate Heq.
Qed.

Lemma copy_subset_step_deterministic : deterministic copy_subset_step.
Proof.
  intros c c1 c2 H1 H2.
  inversion H1; subst; inversion H2; subst; try done; congruence.
Qed.

Lemma copy_done_nf ofile ids : nf copy_subset_step (CpDone ofile ids).
Proof. intros [c H]. inversion H. Qed.

(** No step changes the set. *)
Lemma copy_subset_step_ids c c' :
  copy_subset_step c c' → config_ids c' = config_ids c.
Proof. by destruct 1. Qed.

Lemma copy_subset_steps_ids c c' :
  rtc copy_subset_step c c' → config_ids c' = config_ids c.
Proof.
  induction 1 as [|c c1 c' Hstep _ IH]; [done|].
  rewrite IH. by apply copy_subset_step_ids.
Qed.

Lemma copy_run_data data : ∀ ofile ids,
  rtc copy_subset_step (CpLoop data ofile false ids)
      (CpDone (ofile ++ filter (retained ids) data) ids).
Proof.
  induction data as [|line rest IH]; intros ofile ids.
  - rewrite filter_nil, app_nil_r. apply rtc_once. constructor.
  - destruct (split_cons_first line) as [fields Hsplit].
    rewrite filter_cons. destruct (decide (retained ids line)) as [Hin|Hout].
    + eapply rtc_l; [by eapply cps_keep|].
      replace (ofile ++ line :: filter (retained ids) rest)
        with ((ofile ++ [line]) ++ filter (retained ids) rest)
        by by rewrite <- app_assoc.
      apply IH.
    + eapply rtc_l; [by eapply cps_drop | apply IH].
Qed.

(** The function computes a run of the transition system. *)
Lemma copy_subset_run ifile previous ids :
  ∃ ofile,
    copy_subset ifile previous ids = Ok (ofile, ids) ∧
    copy_subset_ends ifile previous ids ofile ids.
Proof.
  unfold copy_subset_ends, copy_subset_start, open_w.
  destruct ifile as [|header data].
  - exists []. split; [done|]. apply rtc_once. constructor.
  - exists (header :: filter (retained ids) data).
    split; [apply copy_subset_cons|].
    eapply rtc_l; [apply cps_header|]. apply (copy_run_data data [header]).
Qed.

Lemma copy_raised_nf e ids : nf copy_subset_step (CpRaised e ids).
Proof. intros [c H]. inversion H. Qed.

Lemma copy_subset_never_raised ifile previous ids e ids' :
  ¬ rtc copy_subset_step (copy_subset_start ifile previous ids)
        (CpRaised e ids').
Proof.
  intros Hraised.
  destruct (copy_subset_run ifile previous ids) as (ofile & _ & Hrun).
  pose proof (rtc_deterministic_nf _ _ _ _ copy_subset_step_deterministic
    Hraised Hrun (copy_raised_nf _ _) (copy_done_nf _ _)) as Heq.
  discriminate Heq.
Qed.

Lemma copy_subset_ends_iff ifile previous ids ofile ids' :
  copy_subset_ends ifile previous ids ofile ids' ↔
  copy_subset ifile previous ids = Ok (ofile, ids').
Proof.
  destruct (copy_subset_run ifile previous ids) as (ofile0 & Hfun & Hrun).
  split.
  - intros Hends.
    pose proof (rtc_deterministic_nf _ _ _ _ copy_subset_step_deterministic
      Hends Hrun (copy_done_nf _ _) (copy_done_nf _ _)) as Heq.
    inversion Heq; subst. done.
  - rewrite Hfun. by intros [= <- <-].
Qed.

(** * The claims *)

(** ** Subset Copier *)

(** C1 (filtering correctness).  For every source file, previous state of
    the destination and ID set, [copy_subset] ends without an exception and
    the lines it wrote after the first are exactly the source lines after
    the first whose first comma-delimited field is in the ID set, in source
    order: a data line is in the output if and only if its first field is
    in the set, and the retained lines are a sublist of the source lines.
    When the source lines are those of a text file, the lines written are
    the lines of the text that the destination holds in the end. *)
Theorem copy_subset_filters (ifile : list string) (previous : option string)
    (ids : gset string) :
  ∃ ofile,
    copy_subset ifile previous ids = Ok (ofile, ids) ∧
    tail ofile = filter (retained ids) (tail ifile) ∧
    (∀ L, L ∈ tail ifile → (L ∈ tail ofile ↔ first_field L ∈ ids)) ∧
    tail ofile `sublist_of` tail ifile ∧
    (lines_wf ifile → file_lines (file_text ofile) = ofile).
Proof.
  assert (∀ data : list string,
    (∀ L, L ∈ data →
       (L ∈ filter (retained ids) data ↔ first_field L ∈ ids)) ∧
    filter (retained ids) data `sublist_of` data) as Hfilter.
  { intros data. split; [|apply sublist_filter].
    intros L HL. rewrite list_elem_of_filter. unfold retained. tauto. }
  destruct ifile as [|header data].
  - exists []. rewrite copy_subset_nil. simpl. rewrite filter_nil.
    split_and!; [done..| |done|done]. intros L HL. by apply elem_of_nil in HL.
  - exists (header :: filter (retained ids) data).
    rewrite copy_subset_cons. simpl.
    destruct (Hfilter data). split_and!; [done..|].
    intros Hwf. apply (file_lines_text (header :: filter (retained ids) data)).
    by apply lines_wf_header_filter.
Qed.

(** C7 (the ID set is only read).  Every call of [copy_subset] leaves the
    set it was given as it was: the function returns it unchanged, no
    iteration of its loop changes it, and in every configuration a run of
    the transition system reaches the set holds the elements it held at
    the call. *)
Theorem copy_subset_preserves_ids (ifile : list string)
    (previous : option string) (ids : gset string) :
  (∃ ofile, copy_subset ifile previous ids = Ok (ofile, ids)) ∧
  (∀ line s s', copy_subset_body line s = Ok (Continue s') →
                cp_ids s' = cp_ids s) ∧
  (∀ c, rtc copy_subset_step (copy_subset_start ifile previous ids) c →
        config_ids c = ids).
Proof.
  split_and!.
  - destruct (copy_subset_run ifile previous ids) as (ofile & Hfun & _).
    by exists ofile.
  - intros line [ofile header ids0] s'. destruct header.
    + rewrite copy_subset_body_header. by intros [= <-].
    + rewrite copy_subset_body_data. by intros [= <-].
  - intros c Hrun. by apply copy_subset_steps_ids in Hrun.
Qed.

(** ** ID Collector *)

(** C2 (bound).  For every file made of a header line and data lines and
    every non-negative target [num], [get_ids] returns a set of
    [min num d] elements, [d] being the number of distinct first fields
    among the data lines.  So the set has at most [num + 1] elements, at
    most [d], and exactly [num] when the file has at least [num] distinct
    IDs. *)
Theorem get_ids_size (header : string) (data : list string) (num : Z) :
  0 ≤ num →
  ∃ ids,
    get_ids (header :: data) num = Ok ids ∧
    Z.of_nat (size ids) = Z.min num (Z.of_nat (distinct_ids data)) ∧
    Z.of_nat (size ids) ≤ num + 1 ∧
    (size ids ≤ distinct_ids data)%nat ∧
    (num ≤ Z.of_nat (distinct_ids data) → Z.of_nat (size ids) = num).
Proof.
  intros Hnum. rewrite get_ids_unfold. unfold get_ids_init.
  rewrite get_ids_from_header, distinct_ids_size.
  destruct (Z.geb_spec 0 num) as [Hzero|Hpos].
  - exists ∅. rewrite size_empty. split_and!; [done|lia..].
  - destruct (get_ids_from_spec data ∅ num)
      as (read & unread & -> & Hrun & Hstop).
    { rewrite size_empty. lia. }
    rewrite size_empty in Hrun. simpl in Hrun.
    rewrite (left_id_L ∅ (∪)) in Hrun, Hstop.
    exists (ids_of read). split; [done|].
    assert (size (ids_of read) ≤ size (ids_of (read ++ unread)))%nat as Hle.
    { apply subseteq_size. rewrite ids_of_app. apply union_subseteq_l. }
    destruct Hstop as [Hfull|[-> Hshort]].
    + split_and!; lia.
    + rewrite app_nil_r in *. split_and!; lia.
Qed.

Lemma get_ids_size_witness :
  0 ≤ 2 ∧
  ∃ ids,
    get_ids ["id,t"; "A,1"; "B,2"; "A,3"; "C,4"] 2 = Ok ids ∧
    Z.of_nat (size ids)
      = Z.min 2 (Z.of_nat (distinct_ids ["A,1"; "B,2"; "A,3"; "C,4"])) ∧
    Z.of_nat (size ids) ≤ 2 + 1 ∧
    (size ids ≤ distinct_ids ["A,1"; "B,2"; "A,3"; "C,4"])%nat ∧
    (2 ≤ Z.of_nat (distinct_ids ["A,1"; "B,2"; "A,3"; "C,4"]) →
     Z.of_nat (size ids) = 2).
Proof.
  split; [lia|].
  apply (get_ids_size "id,t" ["A,1"; "B,2"; "A,3"; "C,4"] 2). lia.
Defined.

(** C9 (no target).  For every target [num <= 0] and every input file,
    [get_ids] returns the empty set: the test [num_ids >= num] is made
    after the header line too, so the function returns before a data line
    is looked at. *)
Theorem get_ids_nonpositive (ifile : list string) (num : Z) :
  num ≤ 0 → get_ids ifile num = Ok ∅.
Proof.
  intros Hnum. rewrite get_ids_unfold. unfold get_ids_init.
  destruct ifile as [|header data]; [done|].
  rewrite get_ids_from_header.
  by destruct (Z.geb_spec 0 num); [|lia].
Qed.

Lemma get_ids_nonpositive_witness :
  -3 ≤ 0 ∧ get_ids ["id,t"; "A,1"; "B,2"] (-3) = Ok ∅.
Proof.
  split; [lia|]. apply (get_ids_nonpositive ["id,t"; "A,1"; "B,2"] (-3)). lia.
Defined.

(** C4, as the code has it (target zero).  When the target is 0 and the
    file has a header and at least one data line, [get_ids] returns the
    empty set: the test for enough IDs is made after every line, the
    header included, and it succeeds there with a count of 0, so no data
    line is read and there is no overshoot. *)
Theorem get_ids_zero (header first : string) (rest : list string) :
  get_ids (header :: first :: rest) 0 = Ok ∅ ∧
  get_ids_body 0 header get_ids_init = Ok (Return ∅).
Proof. split; reflexivity. Qed.

(** C4, as the specification has it, fails: with target 0 and one data
    line whose ID is [A], the result is not the one-element set of [A]. *)
Lemma get_ids_zero_no_overshoot :
  get_ids ["id,t,x,y,z" +:+ nl; "A,1,0,0,0" +:+ nl] 0 = Ok ∅ ∧
  get_ids ["id,t,x,y,z" +:+ nl; "A,1,0,0,0" +:+ nl] 0
    ≠ Ok {[first_field ("A,1,0,0,0" +:+ nl)]}.
Proof.
  split; [reflexivity|].
  change (get_ids _ 0) with (Ok (∅ : gset string)). intros Heq.
  apply (f_equal (λ r, match r with Ok ids => size ids | Raise _ => 0%nat end))
    in Heq.
  by rewrite size_empty, size_singleton in Heq.
Qed.

(** C5 (end-to-end scenario).  On the header [id,t,x,y,z] followed by rows
    with IDs [A], [B], [A], [C], [get_ids] with target 2 returns [{A, B}].
    The header leaves the set empty, the first row adds [A], the second
    adds [B] and returns at once: the result is the same whatever follows
    the second row. *)
Theorem get_ids_scenario (pa pb pa' pc : string) :
  get_ids (scenario_header :: scenario_rows pa pb pa' pc) 2
    = Ok {["A"; "B"]} ∧
  get_ids_body 2 scenario_header get_ids_init = Ok (Continue (GetIds ∅ 0)) ∧
  get_ids_body 2 ("A," +:+ pa) (GetIds ∅ 0)
    = Ok (Continue (GetIds {["A"]} 1)) ∧
  get_ids_body 2 ("B," +:+ pb) (GetIds {["A"]} 1) = Ok (Return {["A"; "B"]}) ∧
  (∀ unread,
     get_ids (scenario_header :: ("A," +:+ pa) :: ("B," +:+ pb) :: unread) 2
       = Ok {["A"; "B"]}).
Proof.
  assert (({["A"]} ∪ ∅ : gset string) = {["A"]}) as Hset1
    by apply (right_id_L ∅ (∪)).
  assert (({["B"]} ∪ {["A"]} : gset string) = {["A"; "B"]}) as Hset2
    by apply (comm_L (∪)).
  assert (∀ unread,
    get_ids (scenario_header :: ("A," +:+ pa) :: ("B," +:+ pb) :: unread) 2
      = Ok {["A"; "B"]}) as Hrun.
  { intros unread. rewrite get_ids_unfold. unfold get_ids_init.
    rewrite get_ids_from_header. simpl.
    rewrite get_ids_from_data by done.
    change (first_field ("A," +:+ pa)) with "A".
    rewrite decide_True by apply not_elem_of_empty. simpl.
    rewrite get_ids_from_data by done.
    change (first_field ("B," +:+ pb)) with "B". rewrite Hset1.
    rewrite decide_True by set_solver. simpl. by rewrite Hset2. }
  split_and!.
  - apply Hrun.
  - reflexivity.
  - rewrite get_ids_body_data by done.
    change (first_field ("A," +:+ pa)) with "A".
    rewrite decide_True by apply not_elem_of_empty. simpl. by rewrite Hset1.
  - rewrite get_ids_body_data by done.
    change (first_field ("B," +:+ pb)) with "B".
    rewrite decide_True by set_solver. simpl. by rewrite Hset2.
  - apply Hrun.
Qed.

(** ** Both functions *)

(** C6 (no index error).  For every line, also one without a comma and
    the empty one, splitting at the commas gives at least one field, the
    whole line when it has no comma and the empty string for the empty
    line, so taking field 0 succeeds.  Hence no iteration of either loop
    raises, from any state, neither [get_ids] nor [copy_subset] raises on
    any file, and no run of either transition system reaches a
    configuration in which an exception was raised. *)
Theorem no_index_error (line : string) (ifile : list string) (num : Z)
    (previous : option string) (ids : gset string)
    (gs : get_ids_state) (cs : copy_state) :
  (∃ fields, split "," line = first_field line :: fields) ∧
  index (split "," line) 0 = Ok (first_field line) ∧
  (("," : ascii) ∉ String.list_ascii_of_string line →
   split "," line = [line]) ∧
  split "," EmptyString = [EmptyString] ∧
  (∃ r, get_ids_body num line gs = Ok r) ∧
  (∃ r, copy_subset_body line cs = Ok r) ∧
  (∃ ids', get_ids ifile num = Ok ids') ∧
  (∃ ofile, copy_subset ifile previous ids = Ok (ofile, ids)) ∧
  (∀ e, ¬ rtc (get_ids_step num) (get_ids_start ifile) (GiRaised e)) ∧
  (∀ e ids', ¬ rtc copy_subset_step (copy_subset_start ifile previous ids)
                   (CpRaised e ids')).
Proof.
  split_and!; [..| apply get_ids_never_raised
                 | intros e ids'; apply copy_subset_never_raised].
  - apply split_cons_first.
  - apply index_split.
  - intros Hno. apply split_no_sep. by intros c Hc ->.
  - reflexivity.
  - apply get_ids_body_total.
  - apply copy_subset_body_total.
  - apply get_ids_total.
  - destruct (copy_subset_run ifile previous ids) as (ofile & Hfun & _).
    by exists ofile.
Qed.

(** C8 (determinism).  For a fixed input and target, [get_ids] has a run
    that returns, and any two runs that return, return the same set.  For
    a fixed source and ID set, [copy_subset] has a run that ends, and any
    two runs that end, whatever the destination held before each of them,
    wrote the same lines and so leave the same text in it. *)
Theorem runs_deterministic (ifile : list string) (num : Z)
    (ids ids1 ids2 ids1' ids2' : gset string)
    (previous1 previous2 : option string) (ofile1 ofile2 : list string) :
  (∃ ids0, get_ids_returns ifile num ids0) ∧
  (get_ids_returns ifile num ids1 → get_ids_returns ifile num ids2 →
   ids1 = ids2) ∧
  (∃ ofile, copy_subset_ends ifile previous1 ids ofile ids) ∧
  (copy_subset_ends ifile previous1 ids ofile1 ids1' →
   copy_subset_ends ifile previous2 ids ofile2 ids2' →
   ofile1 = ofile2 ∧ file_text ofile1 = file_text ofile2).
Proof.
  split_and!.
  - destruct (get_ids_total ifile num) as [ids0 Hfun].
    exists ids0. by apply get_ids_returns_iff.
  - intros H1%get_ids_returns_iff H2%get_ids_returns_iff. congruence.
  - destruct (copy_subset_run ifile previous1 ids) as (ofile & _ & Hrun).
    by exists ofile.
  - intros H1%copy_subset_ends_iff H2%copy_subset_ends_iff.
    assert (ofile1 = ofile2) as ->; [|done].
    destruct ifile as [|header data].
    + rewrite copy_subset_nil in H1, H2. congruence.
    + rewrite copy_subset_cons in H1, H2. congruence.
Qed.

Lemma runs_deterministic_witness :
  get_ids_returns ["id,t"; "A,1"; "B,2"; "A,3"] 2 {["A"; "B"]} ∧
  get_ids_returns ["id,t"; "A,1"; "B,2"; "A,3"] 2 {["B"; "A"]} ∧
  copy_subset_ends ["id,t"; "A,1"; "B,2"; "A,3"] None {["A"]}
    ["id,t"; "A,1"; "A,3"] {["A"]} ∧
  copy_subset_ends ["id,t"; "A,1"; "B,2"; "A,3"] (Some "id,t") {["A"]}
    ["id,t"; "A,1"; "A,3"] {["A"]} ∧
  ({["A"; "B"]} : gset string) = {["B"; "A"]} ∧
  file_text ["id,t"; "A,1"; "A,3"] = file_text ["id,t"; "A,1"; "A,3"].
Proof.
  assert (get_ids_returns ["id,t"; "A,1"; "B,2"; "A,3"] 2 {["A"; "B"]}) as H1
    by (apply get_ids_returns_iff; vm_compute; reflexivity).
  assert (get_ids_returns ["id,t"; "A,1"; "B,2"; "A,3"] 2 {["B"; "A"]}) as H2
    by (apply get_ids_returns_iff; vm_compute; reflexivity).
  assert (copy_subset_ends ["id,t"; "A,1"; "B,2"; "A,3"] None {["A"]}
            ["id,t"; "A,1"; "A,3"] {["A"]}) as H3
    by (apply copy_subset_ends_iff; vm_compute; reflexivity).
  assert (copy_subset_ends ["id,t"; "A,1"; "B,2"; "A,3"] (Some "id,t") {["A"]}
            ["id,t"; "A,1"; "A,3"] {["A"]}) as H4
    by (apply copy_subset_ends_iff; vm_compute; reflexivity).
  pose proof (runs_deterministic ["id,t"; "A,1"; "B,2"; "A,3"] 2
    {["A"]} {["A"; "B"]} {["B"; "A"]} {["A"]} {["A"]} None (Some "id,t")
    ["id,t"; "A,1"; "A,3"] ["id,t"; "A,1"; "A,3"])
    as (_ & Hids & _ & Hout).
  split_and!; [done..| by apply Hids | by apply Hout].
Defined.

(** * Further properties *)

(** ** IDs in order of first appearance *)

(** Equality of two sets built with union, intersection and singletons,
    element by element. *)
Ltac set_eq :=
  apply leibniz_equiv; intros ?;
  rewrite ?elem_of_union, ?elem_of_intersection, ?elem_of_singleton,
    ?elem_of_union, ?elem_of_intersection;
  intuition (subst; auto).

Lemma first_seen_elem_of seen l x :
  x ∈ first_seen seen l ↔ x ∈ l ∧ x ∉ seen.
Proof.
  revert seen. induction l as [|y l IH]; intros seen; simpl.
  - rewrite elem_of_nil. tauto.
  - destruct (decide (y ∈ seen)) as [Hin|Hout].
    + rewrite IH, elem_of_cons. split; [tauto|].
      intros [[->|?] ?]; tauto.
    + rewrite !elem_of_cons, IH, elem_of_union, elem_of_singleton.
      split; [intros [->|[? ?]]; tauto|].
      intros [[->|?] ?]; [tauto|].
      destruct (decide (x = y)); tauto.
Qed.

Lemma first_seen_NoDup seen l : NoDup (first_seen seen l).
Proof.
  revert seen. induction l as [|y l IH]; intros seen; simpl.
  - constructor.
  - destruct (decide (y ∈ seen)); [apply IH|].
    constructor; [|apply IH].
    rewrite first_seen_elem_of, elem_of_union, elem_of_singleton. tauto.
Qed.

Lemma first_seen_app seen l1 l2 :
  first_seen seen (l1 ++ l2)
    = first_seen seen l1 ++ first_seen (list_to_set l1 ∪ seen) l2.
Proof.
  revert seen. induction l1 as [|y l1 IH]; intros seen; simpl.
  - by rewrite (left_id_L ∅ (∪)).
  - destruct (decide (y ∈ seen)) as [Hin|Hout].
    + rewrite IH. do 2 f_equal. set_eq.
    + rewrite IH. simpl. do 3 f_equal. set_eq.
Qed.

Lemma first_seen_set seen l :
  (list_to_set (first_seen seen l) : gset string) ∪ seen = list_to_set l ∪ seen.
Proof.
  apply leibniz_equiv. intros x.
  rewrite !elem_of_union, !elem_of_list_to_set, first_seen_elem_of.
  destruct (decide (x ∈ seen)); tauto.
Qed.

Lemma first_ids_NoDup data : NoDup (first_ids data).
Proof. apply first_seen_NoDup. Qed.

Lemma first_ids_set data : list_to_set (first_ids data) = ids_of data.
Proof.
  pose proof (first_seen_set ∅ (first_field <$> data)) as H.
  by rewrite !(right_id_L ∅ (∪)) in H.
Qed.

Lemma first_ids_length data : length (first_ids data) = distinct_ids data.
Proof.
  rewrite distinct_ids_size, <- first_ids_set.
  symmetry. apply size_list_to_set, first_ids_NoDup.
Qed.

(** ** What [get_ids] collects *)

(** From a state reached after the header, with the counter the size of
    the set and below the target, the loop adds the first IDs not yet in
    the set, as many as are missing to reach the target. *)
Lemma get_ids_from_first_seen data : ∀ (ids : gset string) (num : Z),
  Z.of_nat (size ids) < num →
  get_ids_from (GetIds ids (Z.of_nat (size ids))) data num
    = Ok (list_to_set
            (take (Z.to_nat (num - Z.of_nat (size ids)))
                  (first_seen ids (first_field <$> data))) ∪ ids).
Proof.
  induction data as [|line rest IH]; intros ids num Hlt.
  - rewrite get_ids_from_nil. simpl. rewrite take_nil. simpl.
    by rewrite (left_id_L ∅ (∪)).
  - rewrite get_ids_from_data by lia. rewrite fmap_cons. simpl first_seen.
    destruct (decide (first_field line ∉ ids)) as [Hnew|Hold].
    + rewrite decide_False by done.
      assert (size ({[first_field line]} ∪ ids) = S (size ids)) as Hsize.
      { rewrite size_union by by apply disjoint_singleton_l.
        by rewrite size_singleton. }
      destruct (Z.geb_spec (Z.of_nat (size ids) + 1) num) as [Hge|Hlt'].
      * replace (Z.to_nat (num - Z.of_nat (size ids))) with 1%nat by lia.
        simpl. by rewrite (right_id_L ∅ (∪)).
      * replace (Z.of_nat (size ids) + 1)
          with (Z.of_nat (size ({[first_field line]} ∪ ids))) by lia.
        rewrite IH by lia.
        replace (Z.to_nat (num - Z.of_nat (size ids)))
          with (S (Z.to_nat
                     (num - Z.of_nat (size ({[first_field line]} ∪ ids)))))
          by lia.
        simpl. f_equal. set_eq.
    + apply dec_stable in Hold. rewrite decide_True by done.
      destruct (Z.geb_spec (Z.of_nat (size ids)) num) as [Hge|_]; [lia|].
      by apply IH.
Qed.

(** [get_ids] returns the first [num] distinct IDs of the data lines, in
    the order in which the file first shows them; none for [num <= 0]. *)
Lemma get_ids_take header data num :
  get_ids (header :: data) num
    = Ok (list_to_set (take (Z.to_nat num) (first_ids data))).
Proof.
  rewrite get_ids_unfold. unfold get_ids_init. rewrite get_ids_from_header.
  destruct (Z.geb_spec 0 num) as [Hle|Hlt].
  - replace (Z.to_nat num) with 0%nat by lia. by rewrite take_0.
  - pose proof (get_ids_from_first_seen data ∅ num) as Hrun.
    rewrite size_empty in Hrun. change (Z.of_nat 0) with 0 in Hrun.
    rewrite Hrun by lia.
    by rewrite Z.sub_0_r, (right_id_L ∅ (∪)).
Qed.

Lemma get_ids_nil num : get_ids [] num = Ok ∅.
Proof. reflexivity. Qed.

Lemma take_set_size (l : list string) n :
  NoDup l → size (list_to_set (take n l) : gset string) = (n `min` length l)%nat.
Proof.
  intros Hnd. rewrite size_list_to_set, length_take; [done|].
  apply (sublist_NoDup (take n l) l); [done | apply sublist_take].
Qed.

Lemma take_set_mono (l : list string) n m :
  (n ≤ m)%nat → (list_to_set (take n l) : gset string) ⊆ list_to_set (take m l).
Proof.
  intros Hle x. rewrite !elem_of_list_to_set.
  replace n with (n `min` m)%nat by lia. rewrite <- take_take.
  apply subseteq_take.
Qed.

(** X1 (first IDs).  [get_ids] returns the set of the first [num]
    distinct IDs of the data lines, in the order in which the file first
    shows them, and the empty set for [num <= 0].  That list of distinct
    IDs has no repeats and holds the first field of every data line; the
    header line contributes nothing. *)
Theorem get_ids_first_ids (header : string) (data : list string) (num : Z) :
  get_ids (header :: data) num
    = Ok (list_to_set (take (Z.to_nat num) (first_ids data))) ∧
  NoDup (first_ids data) ∧
  (∀ id, id ∈ first_ids data ↔ ∃ line, line ∈ data ∧ first_field line = id).
Proof.
  split_and!.
  - apply get_ids_take.
  - apply first_ids_NoDup.
  - intros id. unfold first_ids.
    rewrite first_seen_elem_of, list_elem_of_fmap.
    split.
    + intros [(line & -> & Hline) _]. eauto.
    + intros (line & Hline & <-). split; [eauto | apply not_elem_of_empty].
Qed.

(** X2 (a larger target collects more).  For targets [num1 <= num2] and
    any file, the set [get_ids] returns for [num1] is a subset of the set
    it returns for [num2]. *)
Theorem get_ids_mono (ifile : list string) (num1 num2 : Z) :
  num1 ≤ num2 →
  ∃ ids1 ids2,
    get_ids ifile num1 = Ok ids1 ∧ get_ids ifile num2 = Ok ids2 ∧
    ids1 ⊆ ids2.
Proof.
  intros Hle. destruct ifile as [|header data].
  - exists ∅, ∅. by rewrite !get_ids_nil.
  - eexists _, _. rewrite !get_ids_take. split_and!; [done..|].
    apply take_set_mono. lia.
Qed.

Lemma get_ids_mono_witness :
  1 ≤ 2 ∧
  ∃ ids1 ids2,
    get_ids ["id,t"; "A,1"; "B,2"; "A,3"; "C,4"] 1 = Ok ids1 ∧
    get_ids ["id,t"; "A,1"; "B,2"; "A,3"; "C,4"] 2 = Ok ids2 ∧
    ids1 ⊆ ids2.
Proof.
  split; [lia|].
  apply (get_ids_mono ["id,t"; "A,1"; "B,2"; "A,3"; "C,4"] 1 2). lia.
Defined.

(** X3 (fewer IDs than asked for).  When the target is at least the
    number of distinct IDs among the data lines, [get_ids] reads the whole
    file and returns the ID of every data line. *)
Theorem get_ids_all (header : string) (data : list string) (num : Z) :
  Z.of_nat (distinct_ids data) ≤ num →
  get_ids (header :: data) num = Ok (ids_of data).
Proof.
  intros Hle. rewrite get_ids_take, take_ge, first_ids_set; [done|].
  rewrite first_ids_length. lia.
Qed.

Lemma get_ids_all_witness :
  Z.of_nat (distinct_ids ["A,1"; "B,2"; "A,3"]) ≤ 5 ∧
  get_ids ["id,t"; "A,1"; "B,2"; "A,3"] 5 = Ok (ids_of ["A,1"; "B,2"; "A,3"]).
Proof.
  split; [vm_compute; discriminate|].
  apply (get_ids_all "id,t" ["A,1"; "B,2"; "A,3"] 5).
  vm_compute; discriminate.
Defined.

(** ** What [copy_subset] keeps *)

Lemma filter_retained_inter ids1 ids2 (l : list string) :
  filter (retained ids2) (filter (retained ids1) l)
    = filter (retained (ids1 ∩ ids2)) l.
Proof.
  rewrite list_filter_filter. apply list_filter_iff.
  intros line. unfold retained. rewrite elem_of_intersection. tauto.
Qed.

Lemma filter_retained_idemp ids (l : list string) :
  filter (retained ids) (filter (retained ids) l) = filter (retained ids) l.
Proof.
  rewrite list_filter_filter. apply list_filter_iff. tauto.
Qed.

Lemma filter_retained_all ids (l : list string) :
  ids_of l ⊆ ids → filter (retained ids) l = l.
Proof.
  induction l as [|line l IH]; [done|].
  rewrite ids_of_cons. intros Hsub.
  rewrite filter_cons_True.
  - rewrite IH; [done|]. intros x Hx. apply Hsub, elem_of_union. by right.
  - apply Hsub, elem_of_union. left. by apply elem_of_singleton.
Qed.

Lemma filter_retained_mono ids1 ids2 (l : list string) :
  ids1 ⊆ ids2 →
  filter (retained ids1) l `sublist_of` filter (retained ids2) l.
Proof.
  intros Hsub.
  replace (filter (retained ids1) l)
    with (filter (retained ids1) (filter (retained ids2) l)).
  { apply sublist_filter. }
  rewrite list_filter_filter. apply list_filter_iff.
  intros line. unfold retained. split; [tauto|]. intros Hin. split; [done|].
  by apply Hsub.
Qed.

Lemma ids_of_filter ids (l : list string) :
  ids_of (filter (retained ids) l) = ids_of l ∩ ids.
Proof.
  apply leibniz_equiv. intros id. unfold ids_of.
  rewrite elem_of_intersection, !elem_of_list_to_set, !list_elem_of_fmap.
  split.
  - intros (line & -> & [Hkept Hline]%list_elem_of_filter). eauto.
  - intros [(line & -> & Hline) Hin]. exists line. split; [done|].
    by apply list_elem_of_filter.
Qed.

(** The lines written, for any input: nothing for the empty file, else
    the header and the retained data lines. *)
Lemma copy_subset_lines ifile previous ids :
  copy_subset ifile previous ids
    = Ok (take 1 ifile ++ filter (retained ids) (tail ifile), ids).
Proof.
  destruct ifile as [|header data];
    [apply copy_subset_nil | apply copy_subset_cons].
Qed.

(** X5 (copying a copy).  Running [copy_subset] with the same IDs on a
    file it wrote gives that file again. *)
Theorem copy_subset_idempotent (ifile : list string)
    (previous previous' : option string) (ids : gset string) :
  ∃ ofile,
    copy_subset ifile previous ids = Ok (ofile, ids) ∧
    copy_subset ofile previous' ids = Ok (ofile, ids).
Proof.
  eexists. split; [apply copy_subset_lines|].
  rewrite copy_subset_lines. destruct ifile as [|header data]; [done|].
  simpl. by rewrite filter_retained_idemp.
Qed.

(** X6 (copying twice).  Filtering a file with one set of IDs and the
    result with another gives what filtering the file with the
    intersection of the two sets gives. *)
Theorem copy_subset_compose (ifile : list string)
    (previous1 previous2 previous3 : option string) (ids1 ids2 : gset string) :
  ∃ ofile1 ofile2,
    copy_subset ifile previous1 ids1 = Ok (ofile1, ids1) ∧
    copy_subset ofile1 previous2 ids2 = Ok (ofile2, ids2) ∧
    copy_subset ifile previous3 (ids1 ∩ ids2) = Ok (ofile2, ids1 ∩ ids2).
Proof.
  eexists _, _. split_and!; [apply copy_subset_lines..|].
  rewrite copy_subset_lines. destruct ifile as [|header data]; [done|].
  simpl. by rewrite filter_retained_inter.
Qed.

(** X7 (nothing to drop).  When the ID of every data line is in the set,
    [copy_subset] writes the lines of its input, all of them and in
    order; for the lines of a text file, the text written is the text
    read. *)
Theorem copy_subset_all (ifile : list string) (previous : option string)
    (ids : gset string) :
  ids_of (tail ifile) ⊆ ids →
  copy_subset ifile previous ids = Ok (ifile, ids) ∧
  (∀ text, ifile = file_lines text → file_text ifile = text).
Proof.
  intros Hsub. split.
  - rewrite copy_subset_lines, filter_retained_all by done.
    by destruct ifile.
  - intros text ->. apply file_text_lines.
Qed.

Lemma copy_subset_all_witness :
  ids_of (tail ["id,t"; "A,1"; "B,2"; "A,3"]) ⊆ {["A"; "B"; "C"]} ∧
  copy_subset ["id,t"; "A,1"; "B,2"; "A,3"] None {["A"; "B"; "C"]}
    = Ok (["id,t"; "A,1"; "B,2"; "A,3"], {["A"; "B"; "C"]}) ∧
  (∀ text, ["id,t"; "A,1"; "B,2"; "A,3"] = file_lines text →
           file_text ["id,t"; "A,1"; "B,2"; "A,3"] = text).
Proof.
  assert (ids_of (tail ["id,t"; "A,1"; "B,2"; "A,3"]) ⊆ {["A"; "B"; "C"]})
    as Hsub.
  { intros id. unfold ids_of. simpl.
    rewrite !elem_of_union, !elem_of_singleton, elem_of_empty. tauto. }
  split; [done|].
  by apply (copy_subset_all ["id,t"; "A,1"; "B,2"; "A,3"] None
              {["A"; "B"; "C"]}).
Defined.

(** X8 (a larger set keeps more).  For sets [ids1] included in [ids2],
    the lines [copy_subset] writes for [ids1] are a sublist of those it
    writes for [ids2]. *)
Theorem copy_subset_mono (ifile : list string)
    (previous1 previous2 : option string) (ids1 ids2 : gset string) :
  ids1 ⊆ ids2 →
  ∃ ofile1 ofile2,
    copy_subset ifile previous1 ids1 = Ok (ofile1, ids1) ∧
    copy_subset ifile previous2 ids2 = Ok (ofile2, ids2) ∧
    ofile1 `sublist_of` ofile2.
Proof.
  intros Hsub. eexists _, _. split_and!; [apply copy_subset_lines..|].
  apply sublist_app; [done | by apply filter_retained_mono].
Qed.

Lemma copy_subset_mono_witness :
  ({["A"]} : gset string) ⊆ {["A"; "B"]} ∧
  ∃ ofile1 ofile2,
    copy_subset ["id,t"; "A,1"; "B,2"; "C,3"] None {["A"]}
      = Ok (ofile1, {["A"]}) ∧
    copy_subset ["id,t"; "A,1"; "B,2"; "C,3"] None {["A"; "B"]}
      = Ok (ofile2, {["A"; "B"]}) ∧
    ofile1 `sublist_of` ofile2.
Proof.
  assert (({["A"]} : gset string) ⊆ {["A"; "B"]}) as Hsub
    by apply union_subseteq_l.
  split; [done|].
  by apply (copy_subset_mono ["id,t"; "A,1"; "B,2"; "C,3"] None None).
Defined.

(** X9 (the IDs of a copy).  The IDs of the data lines [copy_subset]
    writes are the IDs of the data lines of its input that are in the
    set: no ID outside the set gets through, and every ID of the set that
    the input has is kept. *)
Theorem copy_subset_ids (ifile : list string) (previous : option string)
    (ids : gset string) :
  ∃ ofile,
    copy_subset ifile previous ids = Ok (ofile, ids) ∧
    ids_of (tail ofile) = ids_of (tail ifile) ∩ ids.
Proof.
  eexists. split; [apply copy_subset_lines|].
  destruct ifile as [|header data]; simpl.
  - change (ids_of []) with (∅ : gset string).
    by rewrite (left_absorb_L ∅ (∩)).
  - apply ids_of_filter.
Qed.

(** X10 (the two functions together).  When [copy_subset] filters the
    file from which [get_ids] collected the set, the IDs of the data lines
    it writes are exactly the collected set, so the copy has as many
    distinct IDs as the set has elements.  Filtering any other file with
    that set writes data lines with IDs of the set only. *)
Theorem subsample_ids (header : string) (data other : list string)
    (num : Z) (previous previous' : option string) :
  ∃ ids ofile ofile',
    get_ids (header :: data) num = Ok ids ∧
    copy_subset (header :: data) previous ids = Ok (ofile, ids) ∧
    ids_of (tail ofile) = ids ∧
    distinct_ids (tail ofile) = size ids ∧
    copy_subset other previous' ids = Ok (ofile', ids) ∧
    ids_of (tail ofile') ⊆ ids.
Proof.
  eexists _, _, _.
  split; [apply get_ids_take|].
  split; [apply copy_subset_cons|].
  assert (ids_of (filter
            (retained (list_to_set (take (Z.to_nat num) (first_ids data))))
            data)
          = list_to_set (take (Z.to_nat num) (first_ids data))) as Hids.
  { rewrite ids_of_filter, <- first_ids_set.
    apply leibniz_equiv. intros id.
    rewrite elem_of_intersection, !elem_of_list_to_set.
    split; [tauto|]. intros Hin. split; [|done].
    by apply (subseteq_take (Z.to_nat num)). }
  split; [done|].
  split; [simpl tail; by rewrite distinct_ids_size, Hids|].
  split; [apply copy_subset_lines|].
  destruct other as [|header' data']; simpl.
  - change (ids_of []) with (∅ : gset string). apply empty_subseteq.
  - rewrite ids_of_filter. apply intersection_subseteq_r.
Qed.

(** ** The names of the files *)

Lemma string_length_app (s t : string) :
  String.length (s +:+ t) = (String.length s + String.length t)%nat.
Proof.
  induction s as [|c s IH]; [done|]. rewrite append_cons. simpl. by rewrite IH.
Qed.

(** [H] equates two names with the same prefix, one with a number [n] in
    it: the lengths fix the length of [n], and then two characters
    differ. *)
Ltac name_clash H n :=
  apply (inj (String.append _)) in H;
  let Hlen := fresh "Hlen" in
  pose proof (f_equal String.length H) as Hlen;
  rewrite !string_length_app in Hlen; simpl in Hlen;
  do 6 (destruct n as [|? n];
        [ try (vm_compute in H; by simplify_eq) | simpl in Hlen ]);
  lia.

Lemma output_input_names_differ input_prefix num x y :
  x ∈ output_names input_prefix num → y ∈ input_names input_prefix → x ≠ y.
Proof.
  unfold output_names, input_names, eph_out, orbit_out, physical_out,
    eph_in, orbit_in, physical_in.
  rewrite !elem_of_cons, !elem_of_nil. generalize (pretty num) as n.
  intros n [->|[->|[->|[]]]] [->|[->|[->|[]]]] H; name_clash H n.
Qed.

Lemma output_names_NoDup input_prefix num :
  NoDup (output_names input_prefix num).
Proof.
  unfold output_names, eph_out, orbit_out, physical_out.
  rewrite !NoDup_cons, !elem_of_cons, !elem_of_nil.
  split_and!; [| |tauto|apply NoDup_nil_2];
    intros H; repeat destruct H as [H|H]; try done;
    do 3 apply (inj (String.append _)) in H; discriminate H.
Qed.

Lemma input_names_NoDup input_prefix : NoDup (input_names input_prefix).
Proof.
  unfold input_names, eph_in, orbit_in, physical_in.
  rewrite !NoDup_cons, !elem_of_cons, !elem_of_nil.
  split_and!; [| |tauto|apply NoDup_nil_2];
    intros H; repeat destruct H as [H|H]; try done;
    apply (inj (String.append _)) in H; discriminate H.
Qed.

Lemma append_inj_r (s s' t : string) : s +:+ t = s' +:+ t → s = s'.
Proof.
  revert s'. induction s as [|c s IH]; intros [|c' s'] H.
  - done.
  - apply (f_equal String.length) in H.
    rewrite !string_length_app in H. simpl in H. lia.
  - apply (f_equal String.length) in H.
    rewrite !string_length_app in H. simpl in H. lia.
  - rewrite !append_cons in H. injection H as -> H. f_equal. by apply IH.
Qed.

Lemma output_name_inj (input_prefix suffix : string) (num num' : Z) :
  input_prefix +:+ "_" +:+ pretty num +:+ suffix
    = input_prefix +:+ "_" +:+ pretty num' +:+ suffix →
  num = num'.
Proof.
  intros H. do 2 apply (inj (String.append _)) in H.
  by apply append_inj_r, (inj pretty) in H.
Qed.

(** X11 (the driver's file names).  For every prefix and target, the
    three files the driver reads and the three it writes are six different
    paths: no input is overwritten and no output overwrites another.
    Different targets give different output names. *)
Theorem driver_names (input_prefix : string) (num : Z) :
  NoDup (input_names input_prefix ++ output_names input_prefix num) ∧
  (∀ num', eph_out input_prefix num = eph_out input_prefix num' →
           num = num') ∧
  (∀ num', orbit_out input_prefix num = orbit_out input_prefix num' →
           num = num') ∧
  (∀ num', physical_out input_prefix num = physical_out input_prefix num' →
           num = num').
Proof.
  split_and!; [|intros num'; apply output_name_inj..].
  apply NoDup_app. split_and!.
  - apply input_names_NoDup.
  - intros y Hy Hx. by eapply output_input_names_differ.
  - apply output_names_NoDup.
Qed.

(** ** Line terminators *)

Lemma universal_newlines_no_cr raw : no_cr (universal_newlines raw) = true.
Proof.
  cut (no_cr (universal_newlines raw) = true ∧
       ∀ c, no_cr (universal_newlines (String c raw)) = true); [tauto|].
  induction raw as [|c rest [IH IHc]].
  - split; [done|]. intros c. simpl. by destruct (Ascii.eqb c "013") eqn:E;
      simpl; rewrite ?E.
  - split; [apply IHc|]. intros c0.
    change (universal_newlines (String c0 (String c rest)))
      with (if Ascii.eqb c0 "013" then
              String "010" (if Ascii.eqb c "010" then universal_newlines rest
                            else universal_newlines (String c rest))
            else String c0 (universal_newlines (String c rest))).
    destruct (Ascii.eqb c0 "013") eqn:E0.
    + destruct (Ascii.eqb c "010"); simpl; [apply IH | apply IHc].
    + change (no_cr (String c0 (universal_newlines (String c rest))))
        with (negb (Ascii.eqb c0 "013")
              && no_cr (universal_newlines (String c rest))).
      by rewrite E0, IHc.
Qed.

(** What is written reads back as it was, on either platform, when it
    holds no CR. *)
Lemma universal_write_newlines b text :
  no_cr text = true → universal_newlines (write_newlines b text) = text.
Proof.
  induction text as [|c rest IH]; [done|]. simpl.
  intros [Hc Hrest]%andb_prop. apply negb_true_iff in Hc.
  destruct (Ascii.eqb_spec c "010") as [->|Hlf]; destruct b; simpl.
  - by rewrite IH.
  - by rewrite IH.
  - by rewrite Hc, IH.
  - by rewrite Hc, IH.
Qed.

Lemma no_cr_app (s t : string) :
  no_cr (s +:+ t) = no_cr s && no_cr t.
Proof.
  induction s as [|c s IH]; [done|].
  rewrite append_cons. simpl. by rewrite IH, andb_assoc.
Qed.

Lemma no_cr_file_text lines :
  Forall (λ line, no_cr line = true) lines → no_cr (file_text lines) = true.
Proof.
  induction 1 as [|line lines Hline _ IH]; [done|].
  by rewrite file_text_cons, no_cr_app, Hline, IH.
Qed.

Lemma no_cr_file_lines text :
  no_cr text = true → Forall (λ line, no_cr line = true) (file_lines text).
Proof.
  induction text as [|c rest IH]; simpl; [constructor|].
  intros [Hc Hrest]%andb_prop. specialize (IH Hrest).
  destruct (Ascii.eqb c "010").
  - constructor; [|done]. simpl. by rewrite Hc.
  - destruct (file_lines rest) as [|line lines].
    + repeat constructor. simpl. by rewrite Hc.
    + inversion IH; subst. constructor; [|done]. simpl.
      by rewrite Hc.
Qed.

(** The lines the program reads are the lines of the file, each with its
    terminator translated. *)
Lemma file_lines_universal raw :
  file_lines (universal_newlines raw) = universal_newlines <$> raw_lines raw.
Proof.
  cut (file_lines (universal_newlines raw)
         = universal_newlines <$> raw_lines raw ∧
       ∀ c, file_lines (universal_newlines (String c raw))
            = universal_newlines <$> raw_lines (String c raw)); [tauto|].
  induction raw as [|c rest [IH IHc]].
  - split; [done|]. intros c. simpl.
    destruct (Ascii.eqb c "013") eqn:E13; destruct (Ascii.eqb c "010") eqn:E10;
      simpl; by rewrite ?E13, ?E10.
  - split; [apply IHc|]. intros c0.
    change (universal_newlines (String c0 (String c rest)))
      with (if Ascii.eqb c0 "013" then
              String "010" (if Ascii.eqb c "010" then universal_newlines rest
                            else universal_newlines (String c rest))
            else String c0 (universal_newlines (String c rest))).
    change (raw_lines (String c0 (String c rest)))
      with (if Ascii.eqb c0 "010"
            then String c0 EmptyString :: raw_lines (String c rest)
            else if Ascii.eqb c0 "013" then
              if Ascii.eqb c "010"
              then String c0 (String c EmptyString) :: raw_lines rest
              else String c0 EmptyString :: raw_lines (String c rest)
            else match raw_lines (String c rest) with
                 | [] => [String c0 EmptyString]
                 | line :: lines => String c0 line :: lines
                 end).
    destruct (Ascii.eqb_spec c0 "013") as [->|H13].
    + change (Ascii.eqb "013" "010") with false. cbv iota.
      destruct (Ascii.eqb c "010") eqn:E.
      * rewrite fmap_cons, <- IH. simpl. by rewrite E.
      * rewrite fmap_cons, <- IHc. reflexivity.
    + apply Ascii.eqb_neq in H13.
      destruct (Ascii.eqb c0 "010") eqn:E10.
      * rewrite fmap_cons, <- IHc. simpl. by rewrite E10, H13.
      * change (file_lines (String c0 (universal_newlines (String c rest))))
          with (if Ascii.eqb c0 "010"
                then String c0 EmptyString
                       :: file_lines (universal_newlines (String c rest))
                else match file_lines (universal_newlines (String c rest)) with
                     | [] => [String c0 EmptyString]
                     | line :: lines => String c0 line :: lines
                     end).
        rewrite E10, IHc.
        destruct (raw_lines (String c rest)) as [|line lines]; simpl.
        -- by rewrite H13.
        -- by rewrite H13.
Qed.

Lemma file_lines_cons_nonempty c text : file_lines (String c text) ≠ [].
Proof. intros H. by apply file_lines_nil_inv in H. Qed.

(** Text added after a text that ends its last line makes lines of its
    own. *)
Lemma file_lines_app text extra :
  ends_lines text = true →
  file_lines (text +:+ extra) = file_lines text ++ file_lines extra.
Proof.
  induction text as [|c rest IH]; [done|].
  destruct rest as [|c' rest].
  - simpl. intros ->. reflexivity.
  - intros Hends. specialize (IH Hends).
    rewrite append_cons.
    change (file_lines (String c (String c' rest +:+ extra)))
      with (if Ascii.eqb c "010"
            then String c EmptyString
                   :: file_lines (String c' rest +:+ extra)
            else match file_lines (String c' rest +:+ extra) with
                 | [] => [String c EmptyString]
                 | line :: lines => String c line :: lines
                 end).
    change (file_lines (String c (String c' rest)))
      with (if Ascii.eqb c "010"
            then String c EmptyString :: file_lines (String c' rest)
            else match file_lines (String c' rest) with
                 | [] => [String c EmptyString]
                 | line :: lines => String c line :: lines
                 end).
    rewrite IH. destruct (Ascii.eqb c "010"); [done|].
    pose proof (file_lines_cons_nonempty c' rest) as Hne.
    by destruct (file_lines (String c' rest)).
Qed.

(** What is read of a file to which bytes were added starts with what
    was read of it before. *)
Lemma universal_newlines_app raw extra :
  ∃ extra', universal_newlines (raw +:+ extra)
            = universal_newlines raw +:+ extra'.
Proof.
  cut ((∃ extra', universal_newlines (raw +:+ extra)
                  = universal_newlines raw +:+ extra') ∧
       ∀ c, ∃ extra', universal_newlines (String c raw +:+ extra)
                      = universal_newlines (String c raw) +:+ extra');
    [tauto|].
  induction raw as [|c rest [IH IHc]].
  - split; [by exists (universal_newlines extra)|].
    intros c. rewrite append_cons. simpl.
    destruct (Ascii.eqb c "013").
    + eexists. rewrite append_cons. reflexivity.
    + eexists. rewrite append_cons. reflexivity.
  - split; [apply IHc|]. intros c0.
    rewrite !append_cons.
    change (universal_newlines (String c0 (String c (rest +:+ extra))))
      with (if Ascii.eqb c0 "013" then
              String "010"
                (if Ascii.eqb c "010" then universal_newlines (rest +:+ extra)
                 else universal_newlines (String c (rest +:+ extra)))
            else String c0 (universal_newlines (String c (rest +:+ extra)))).
    change (universal_newlines (String c0 (String c rest)))
      with (if Ascii.eqb c0 "013" then
              String "010" (if Ascii.eqb c "010" then universal_newlines rest
                            else universal_newlines (String c rest))
            else String c0 (universal_newlines (String c rest))).
    destruct IH as [e1 He1]. destruct (IHc c) as [e2 He2].
    rewrite append_cons in He2.
    destruct (Ascii.eqb c0 "013"); [destruct (Ascii.eqb c "010")|].
    + exists e1. by rewrite He1, append_cons.
    + exists e2. by rewrite He2, append_cons.
    + exists e2. by rewrite He2, append_cons.
Qed.

Lemma lines_wf_take lines n : lines_wf lines → lines_wf (take n lines).
Proof.
  intros Hwf. revert n.
  induction Hwf as [|line t Hs|line lines Hs Hwf IH]; intros [|n]; simpl.
  - constructor.
  - constructor.
  - constructor.
  - rewrite take_nil. by eapply wf_last.
  - constructor.
  - apply wf_cons; [done | apply IH].
Qed.

(** ** The two functions on named files *)

Lemma bind_returns {A B} (m : io A) (k : A → io B) w w' a :
  m w = (w', Returns a) → (m ≫= k) w = k a w'.
Proof. unfold mbind, io_bind. by intros ->. Qed.

Lemma bind_raises {A B} (m : io A) (k : A → io B) w w' e :
  m w = (w', Raises e) → (m ≫= k) w = (w', Raises e).
Proof. unfold mbind, io_bind. by intros ->. Qed.

Lemma with_files_id w : with_files (files w) w = w.
Proof. by destruct w. Qed.

Lemma get_ids_collected ifile num :
  get_ids ifile num = Ok (collected num ifile).
Proof.
  unfold collected. destruct ifile as [|header data]; [|apply get_ids_take].
  rewrite get_ids_nil. change (first_ids (tail [])) with (@nil string).
  by rewrite take_nil.
Qed.

(** On lines that end with the end of the file, the loop of
    [get_ids_on] is [get_ids]. *)
Lemma get_ids_on_read input_file num ifile w :
  get_ids_on input_file num (ifile, false) w
    = (w, Returns (collected num ifile)).
Proof.
  pose proof (get_ids_collected ifile num) as Hfun.
  unfold get_ids, get_ids_from, mbind, result_bind in Hfun.
  unfold get_ids_on, mret, io_ret. simpl.
  destruct (for_each (get_ids_body num) ifile get_ids_init) as [[s|ids]|e].
  all: congruence.
Qed.

(** [get_ids_on] changes nothing, and what it gives does not depend on
    the world. *)
Lemma get_ids_on_pure input_file num stream w w' :
  get_ids_on input_file num stream w'
    = (w', (get_ids_on input_file num stream w).2).
Proof.
  unfold get_ids_on.
  destruct (for_each (get_ids_body num) stream.1 get_ids_init) as [[s|ids]|e];
    [destruct stream.2|..]; reflexivity.
Qed.

Lemma get_ids_file_eval path num w :
  get_ids_file path num w =
    match files w !! path with
    | None => (w, Raises (FileNotFoundError path))
    | Some raw =>
        if readable w path
        then get_ids_on path num (read_text (os w) raw) w
        else (w, Raises (PermissionError path))
    end.
Proof.
  unfold get_ids_file, mbind, io_bind, open_read, read_lines.
  destruct (files w !! path) as [raw|] eqn:Hfile; [|done].
  destruct (readable w path); [|done]. by rewrite Hfile.
Qed.

Lemma get_ids_file_missing path num w :
  files w !! path = None →
  get_ids_file path num w = (w, Raises (FileNotFoundError path)).
Proof. intros Hnone. by rewrite get_ids_file_eval, Hnone. Qed.

Lemma get_ids_file_reads path num w ifile :
  reads w path ifile →
  get_ids_file path num w = (w, Returns (collected num ifile)).
Proof.
  intros (raw & Hfile & Hread & Hstream).
  rewrite get_ids_file_eval, Hfile, Hread, Hstream.
  apply get_ids_on_read.
Qed.

Lemma copy_subset_kept ifile previous ids :
  copy_subset ifile previous ids = Ok (kept ids ifile, ids).
Proof. apply copy_subset_lines. Qed.

(** [copy_subset] on named files, case by case.  With the output file
    open, the loop reads what the input path then holds. *)
Lemma copy_subset_file_eval input_file output_file ids w :
  copy_subset_file input_file output_file ids w =
    match files w !! input_file with
    | None => (w, Raises (FileNotFoundError input_file))
    | Some _ =>
        if readable w input_file then
          if writable w output_file then
            (with_files
               (<[output_file :=
                    written w
                      (kept ids
                         (read_text (os w)
                            (default EmptyString
                               (<[output_file := EmptyString]> (files w)
                                  !! input_file))).1)]>
                  (files w)) w,
             if (read_text (os w)
                   (default EmptyString
                      (<[output_file := EmptyString]> (files w)
                         !! input_file))).2
             then Raises (UnicodeDecodeError input_file)
             else Returns ids)
          else (w, Raises (OSError output_file))
        else (w, Raises (PermissionError input_file))
    end.
Proof.
  unfold copy_subset_file, mbind, io_bind, open_read, open_write, read_lines.
  destruct (files w !! input_file) as [raw|] eqn:Hfile; [|done].
  destruct (readable w input_file); [|done].
  destruct (writable w output_file); [|done].
  simpl. unfold lift. rewrite copy_subset_kept. simpl.
  unfold with_files, written. simpl. rewrite insert_insert_eq.
  by destruct (read_text _ _).2.
Qed.

Lemma copy_subset_file_missing input_file output_file ids w :
  files w !! input_file = None →
  copy_subset_file input_file output_file ids w
    = (w, Raises (FileNotFoundError input_file)).
Proof. intros Hnone. by rewrite copy_subset_file_eval, Hnone. Qed.

Lemma copy_subset_file_locked input_file output_file ids w raw :
  files w !! input_file = Some raw →
  readable w input_file = false →
  copy_subset_file input_file output_file ids w
    = (w, Raises (PermissionError input_file)).
Proof.
  intros Hfile Hno. by rewrite copy_subset_file_eval, Hfile, Hno.
Qed.

Lemma copy_subset_file_refused input_file output_file ids w raw :
  files w !! input_file = Some raw →
  readable w input_file = true →
  writable w output_file = false →
  copy_subset_file input_file output_file ids w
    = (w, Raises (OSError output_file)).
Proof.
  intros Hfile Hread Hno.
  by rewrite copy_subset_file_eval, Hfile, Hread, Hno.
Qed.

Lemma copy_subset_file_reads input_file output_file ids w ifile :
  input_file ≠ output_file →
  reads w input_file ifile →
  writable w output_file = true →
  copy_subset_file input_file output_file ids w
    = (with_files (<[output_file := written w (kept ids ifile)]> (files w)) w,
       Returns ids).
Proof.
  intros Hne (raw & Hfile & Hread & Hstream) Hwr.
  rewrite copy_subset_file_eval, Hfile, Hread, Hwr.
  rewrite lookup_insert_ne, Hfile by done. simpl. by rewrite Hstream.
Qed.

Lemma read_text_empty p : read_text p EmptyString = ([], false).
Proof.
  unfold read_text.
  change (file_lines (universal_newlines EmptyString)) with (@nil string).
  destruct (decode_error p EmptyString) as [n|]; [|done].
  destruct (decide (n < length (@nil string))%nat) as [Hlt|_]; [|done].
  simpl in Hlt. lia.
Qed.

(** The lines that reach a loop are the first lines of the text of the
    file, all of them unless a decoding error ends them. *)
Lemma read_text_take p raw :
  ∃ n, (read_text p raw).1 = take n (file_lines (universal_newlines raw)) ∧
       ((read_text p raw).2 = false →
        (read_text p raw).1 = file_lines (universal_newlines raw)).
Proof.
  unfold read_text. destruct (decode_error p raw) as [n|].
  - destruct (decide _); simpl.
    + by exists n.
    + exists (length (file_lines (universal_newlines raw))).
      by rewrite take_ge by lia.
  - exists (length (file_lines (universal_newlines raw))).
    by rewrite take_ge by lia.
Qed.

Lemma read_text_wf p raw : lines_wf (read_text p raw).1.
Proof.
  destruct (read_text_take p raw) as (n & -> & _).
  apply lines_wf_take, file_lines_wf.
Qed.

Lemma read_text_no_cr p raw :
  Forall (λ line, no_cr line = true) (read_text p raw).1.
Proof.
  destruct (read_text_take p raw) as (n & -> & _).
  apply Forall_take, no_cr_file_lines, universal_newlines_no_cr.
Qed.

(** X12 (a call that cannot open its files).  When the input file does
    not exist, or the output path cannot be opened for writing,
    [copy_subset] raises and the file system is as before: in particular
    an existing output file is not truncated when the input is missing,
    the input being opened first. *)
Theorem copy_subset_file_fails_clean (input_file output_file : string)
    (ids : gset string) (w : world) :
  files w !! input_file = None ∨ writable w output_file = false →
  ∃ e, copy_subset_file input_file output_file ids w = (w, Raises e) ∧
       (files w !! input_file = None → e = FileNotFoundError input_file).
Proof.
  intros Hfail. rewrite copy_subset_file_eval.
  destruct (files w !! input_file) as [raw|] eqn:Hfile.
  - destruct Hfail as [?|Hno]; [done|]. rewrite Hno.
    destruct (readable w input_file); eexists; by split.
  - by eexists.
Qed.

Lemma copy_subset_file_fails_clean_witness :
  (files (World {["out.csv" := "old"]} (λ _, true) (λ _, true) posix [])
     !! "in.csv" = None ∨
   writable (World {["out.csv" := "old"]} (λ _, true) (λ _, true) posix [])
     "out.csv" = false) ∧
  ∃ e,
    copy_subset_file "in.csv" "out.csv" {["A"]}
      (World {["out.csv" := "old"]} (λ _, true) (λ _, true) posix [])
    = (World {["out.csv" := "old"]} (λ _, true) (λ _, true) posix [],
       Raises e) ∧
    (files (World {["out.csv" := "old"]} (λ _, true) (λ _, true) posix [])
       !! "in.csv" = None →
     e = FileNotFoundError "in.csv").
Proof.
  assert (files
            (World {["out.csv" := "old"]} (λ _, true) (λ _, true) posix [])
            !! "in.csv" = None) as Hnone by (vm_compute; reflexivity).
  split; [by left|].
  apply (copy_subset_file_fails_clean "in.csv" "out.csv" {["A"]}
           (World {["out.csv" := "old"]} (λ _, true) (λ _, true) posix [])).
  by left.
Defined.

(** X13 (reading and writing one file).  When [copy_subset] is given the
    same path as input and as output, the file, whatever it held, is left
    empty: it is truncated when it is opened for writing, before the loop
    reads a line, so not even the header is copied.  This is so when the
    file can be opened for reading; when it cannot, the call raises
    [PermissionError] before the file is opened for writing, and the file
    is as before. *)
Theorem copy_subset_file_same (path text : string) (ids : gset string)
    (w : world) :
  files w !! path = Some text →
  writable w path = true →
  copy_subset_file path path ids w
    = if readable w path
      then (World (<[path := EmptyString]> (files w)) (readable w)
                  (writable w) (os w) (stdout w),
            Returns ids)
      else (w, Raises (PermissionError path)).
Proof.
  intros Hfile Hwr.
  rewrite copy_subset_file_eval, Hfile, Hwr, lookup_insert_eq.
  destruct (readable w path); [|done].
  simpl default. by rewrite read_text_empty.
Qed.

Lemma copy_subset_file_same_witness :
  files (World {["f.csv" := "id,t" +:+ nl +:+ "A,1" +:+ nl]}
               (λ _, true) (λ _, true) posix [])
    !! "f.csv" = Some ("id,t" +:+ nl +:+ "A,1" +:+ nl) ∧
  writable (World {["f.csv" := "id,t" +:+ nl +:+ "A,1" +:+ nl]}
                  (λ _, true) (λ _, true) posix [])
    "f.csv" = true ∧
  copy_subset_file "f.csv" "f.csv" {["A"]}
    (World {["f.csv" := "id,t" +:+ nl +:+ "A,1" +:+ nl]}
           (λ _, true) (λ _, true) posix [])
  = (World (<["f.csv" := EmptyString]>
              {["f.csv" := "id,t" +:+ nl +:+ "A,1" +:+ nl]})
           (λ _, true) (λ _, true) posix [],
     Returns {["A"]}).
Proof.
  assert (files
    (World {["f.csv" := "id,t" +:+ nl +:+ "A,1" +:+ nl]}
           (λ _, true) (λ _, true) posix [])
    !! "f.csv" = Some ("id,t" +:+ nl +:+ "A,1" +:+ nl)) as Hsome
    by apply lookup_singleton_eq.
  split_and!; [done..|].
  exact (copy_subset_file_same "f.csv" ("id,t" +:+ nl +:+ "A,1" +:+ nl)
           {["A"]}
           (World {["f.csv" := "id,t" +:+ nl +:+ "A,1" +:+ nl]}
                  (λ _, true) (λ _, true) posix [])
           Hsome eq_refl).
Defined.

(** ** What the driver reads and writes *)

Lemma same_inputs_refl ins w : same_inputs ins w w.
Proof. by split_and!. Qed.

Lemma confined_ret {A} ins outs (a : A) : confined ins outs (mret a).
Proof.
  intros w. exists ∅, [], (Returns a). split.
  - intros path [? H]. by rewrite lookup_empty in H.
  - intros [fs rd wr p out] _. unfold mret, io_ret. simpl.
    by rewrite (left_id_L ∅ (∪)), app_nil_r.
Qed.

Lemma confined_raise {A} ins outs e : confined ins outs (@raise A e).
Proof.
  intros w. exists ∅, [], (Raises e). split.
  - intros path [? H]. by rewrite lookup_empty in H.
  - intros [fs rd wr p out] _. unfold raise. simpl.
    by rewrite (left_id_L ∅ (∪)), app_nil_r.
Qed.

Lemma confined_bind {A B} ins outs (m : io A) (k : A → io B) :
  (∀ path, path ∈ ins → path ∉ outs) →
  confined ins outs m → (∀ a, confined ins outs (k a)) →
  confined ins outs (m ≫= k).
Proof.
  intros Hdisj Hm Hk w.
  destruct (Hm w) as (delta & printed & r & Hdom & Hrun).
  destruct r as [a|e].
  - destruct (Hk a w) as (delta' & printed' & r' & Hdom' & Hrun').
    exists (delta' ∪ delta), (printed ++ printed'), r'. split.
    + intros path [Hin|Hin]%lookup_union_is_Some; auto.
    + intros w' Hsame. erewrite bind_returns; [|by apply Hrun].
      rewrite Hrun'; [simpl; by rewrite (assoc_L (∪)), (assoc_L (++))|].
      destruct Hsame as (Hfiles & Hrd & Hwr & Hos). split_and!; [|done..].
      intros path Hpath. simpl. rewrite lookup_union_r; [by apply Hfiles|].
      destruct (delta !! path) eqn:E; [|done].
      destruct (Hdisj path Hpath). apply Hdom. by rewrite E.
  - exists delta, printed, (Raises e). split; [done|].
    intros w' Hsame. by erewrite bind_raises; [|by apply Hrun].
Qed.

Lemma confined_print ins outs ids : confined ins outs (print ids).
Proof.
  intros w. exists ∅, [ids], (Returns ()). split.
  - intros path [? H]. by rewrite lookup_empty in H.
  - intros w' _. unfold print. by rewrite (left_id_L ∅ (∪)).
Qed.

Lemma confined_get_ids_file ins outs path num :
  path ∈ ins → confined ins outs (get_ids_file path num).
Proof.
  intros Hpath w.
  exists ∅, [], (get_ids_file path num w).2.
  split.
  - intros p [? H]. by rewrite lookup_empty in H.
  - intros w' (Hfiles & Hrd & _ & Hos).
    rewrite (left_id_L ∅ (∪)), app_nil_r.
    replace (World (files w') (readable w') (writable w') (os w') (stdout w'))
      with w' by by destruct w'.
    rewrite !get_ids_file_eval.
    rewrite <- (Hfiles path Hpath), <- (Hrd path Hpath), <- Hos.
    destruct (files w !! path) as [raw|]; [|done].
    destruct (readable w path); [|done].
    apply get_ids_on_pure.
Qed.

Lemma confined_copy_subset_file ins outs input_file output_file ids :
  input_file ∈ ins → output_file ∈ outs → input_file ≠ output_file →
  confined ins outs (copy_subset_file input_file output_file ids).
Proof.
  intros Hin Hout Hne w.
  exists (if decide (is_Some (files w !! input_file)
                     ∧ readable w input_file = true
                     ∧ writable w output_file = true)
          then {[output_file :=
                   written w
                     (kept ids
                        (read_text (os w)
                           (default EmptyString (files w !! input_file))).1)]}
          else ∅),
    [], (copy_subset_file input_file output_file ids w).2.
  split.
  - intros path [x Hx]. destruct (decide _).
    + by apply lookup_singleton_Some in Hx as [<- _].
    + by rewrite lookup_empty in Hx.
  - intros [fs' rd' wr' p' out'] (Hfiles & Hrd & Hwr & Hos).
    simpl in Hfiles, Hrd, Hwr, Hos. subst p'. rewrite app_nil_r.
    rewrite !copy_subset_file_eval. unfold written, with_files. simpl.
    rewrite !lookup_insert_ne by done.
    rewrite <- (Hfiles _ Hin), <- (Hrd _ Hin), <- Hwr.
    destruct (files w !! input_file) as [raw|] eqn:Hfile;
      [destruct (readable w input_file);
       [destruct (writable w output_file)|]|].
    + rewrite decide_True by eauto. simpl.
      by rewrite <- insert_union_singleton_l.
    + rewrite decide_False by (intros (_ & _ & ?); done). simpl.
      by rewrite (left_id_L ∅ (∪)).
    + rewrite decide_False by (intros (_ & ? & _); done). simpl.
      by rewrite (left_id_L ∅ (∪)).
    + rewrite decide_False by (intros ([? ?] & _); done). simpl.
      by rewrite (left_id_L ∅ (∪)).
Qed.

(** [x] is one of the names of a list of names written out in full. *)
Ltac name_in_list :=
  unfold input_names, output_names; rewrite !elem_of_cons;
  solve [repeat first [by left | right]].

Lemma in_out_names_differ input_prefix num x y :
  x ∈ input_names input_prefix → y ∈ output_names input_prefix num → x ≠ y.
Proof. intros Hx Hy Heq. by eapply output_input_names_differ. Qed.

Lemma confined_main input_prefix num :
  confined (input_names input_prefix) (output_names input_prefix num)
    (main input_prefix num).
Proof.
  pose proof (in_out_names_differ input_prefix num) as Hne.
  assert (∀ path, path ∈ input_names input_prefix →
                  path ∉ output_names input_prefix num) as Hdisj.
  { intros path Hin Hout. by eapply Hne. }
  unfold main.
  apply confined_bind; [done| apply confined_get_ids_file; name_in_list |].
  intros ids. apply confined_bind; [done | apply confined_print |].
  intros _. apply confined_bind; [done| |].
  { apply confined_copy_subset_file; [name_in_list..|].
    apply Hne; name_in_list. }
  intros ids1. apply confined_bind; [done| |].
  { apply confined_copy_subset_file; [name_in_list..|].
    apply Hne; name_in_list. }
  intros ids2. apply confined_bind; [done| |].
  { apply confined_copy_subset_file; [name_in_list..|].
    apply Hne; name_in_list. }
  intros _. apply confined_ret.
Qed.

(** The driver up to the first copy, when the driver file is read to its
    end. *)
Lemma main_collects input_prefix num w eph :
  reads w (eph_in input_prefix) eph →
  main input_prefix num w
    = (copy_subset_file (eph_in input_prefix) (eph_out input_prefix num)
         (collected num eph)
       ≫= λ ids,
         copy_subset_file (orbit_in input_prefix)
           (orbit_out input_prefix num) ids
         ≫= λ ids,
           copy_subset_file (physical_in input_prefix)
             (physical_out input_prefix num) ids
           ≫= λ _, mret ())
      (World (files w) (readable w) (writable w) (os w)
             (stdout w ++ [collected num eph])).
Proof.
  intros Heph. unfold main.
  erewrite bind_returns; [|by apply get_ids_file_reads].
  by erewrite bind_returns; [|reflexivity].
Qed.

(** Whether and how a path is read depends on its bytes, its permission
    and the platform only. *)
Lemma reads_agree w w' path ifile :
  files w' !! path = files w !! path →
  readable w' path = readable w path →
  os w' = os w →
  reads w path ifile → reads w' path ifile.
Proof.
  intros Hfiles Hreadable Hos (raw & Hfile & Hread & Hstream).
  exists raw. by rewrite Hfiles, Hreadable, Hos.
Qed.

(** X14 (a complete run).  When the three input files exist, can be
    opened for reading and are read to their end without a decoding error,
    and the three output paths can be written, the driver ends normally.
    It prints the set [get_ids] collects from the lines of the [_eph]
    file, writes to each output path what [copy_subset] keeps of the lines
    of the matching input for that set, with the line separator of the
    platform, and changes nothing else. *)
Theorem main_succeeds (input_prefix : string) (num : Z) (w : world)
    (eph orbit physical : list string) :
  reads w (eph_in input_prefix) eph →
  reads w (orbit_in input_prefix) orbit →
  reads w (physical_in input_prefix) physical →
  (∀ path, path ∈ output_names input_prefix num → writable w path = true) →
  main input_prefix num w
    = (World
         (<[physical_out input_prefix num
              := written w (kept (collected num eph) physical)]>
            (<[orbit_out input_prefix num
                 := written w (kept (collected num eph) orbit)]>
               (<[eph_out input_prefix num
                    := written w (kept (collected num eph) eph)]> (files w))))
         (readable w) (writable w) (os w)
         (stdout w ++ [collected num eph]),
       Returns ()) ∧
  get_ids eph num = Ok (collected num eph) ∧
  (∀ ifile previous ids,
     copy_subset ifile previous ids = Ok (kept ids ifile, ids)).
Proof.
  intros Heph Horbit Hphysical Hwr.
  pose proof (in_out_names_differ input_prefix num) as Hne.
  split_and!; [|apply get_ids_collected|apply copy_subset_kept].
  rewrite (main_collects _ _ _ eph) by done.
  erewrite bind_returns.
  2:{ apply (copy_subset_file_reads _ _ _ _ eph); simpl.
      - apply Hne; name_in_list.
      - by apply (reads_agree w).
      - apply Hwr. name_in_list. }
  erewrite bind_returns.
  2:{ apply (copy_subset_file_reads _ _ _ _ orbit); simpl.
      - apply Hne; name_in_list.
      - apply (reads_agree w); [simpl|done..].
        apply lookup_insert_ne, not_eq_sym, Hne; name_in_list.
      - apply Hwr. name_in_list. }
  erewrite bind_returns.
  2:{ apply (copy_subset_file_reads _ _ _ _ physical); simpl.
      - apply Hne; name_in_list.
      - apply (reads_agree w); [simpl|done..].
        rewrite !lookup_insert_ne; [done|..];
          apply not_eq_sym, Hne; name_in_list.
      - apply Hwr. name_in_list. }
  reflexivity.
Qed.

Lemma sample_world_reads (path text : string) :
  files sample_world !! path = Some text →
  reads sample_world path (file_lines (universal_newlines text)).
Proof. intros Hfile. by exists text. Qed.

Lemma main_succeeds_witness :
  reads sample_world (eph_in "s")
    (file_lines (universal_newlines sample_eph)) ∧
  reads sample_world (orbit_in "s")
    (file_lines (universal_newlines sample_orbit)) ∧
  reads sample_world (physical_in "s")
    (file_lines (universal_newlines sample_physical)) ∧
  (∀ path, path ∈ output_names "s" 1 → writable sample_world path = true) ∧
  main "s" 1 sample_world
    = (World
         (<[physical_out "s" 1 := "id,H" +:+ nl +:+ "A,15" +:+ nl]>
            (<[orbit_out "s" 1 := "id,a,e" +:+ nl +:+ "A,1,0" +:+ nl]>
               (<[eph_out "s" 1
                    := "id,t" +:+ nl +:+ "A,1" +:+ nl +:+ "A,3" +:+ nl]>
                  (files sample_world))))
         (readable sample_world) (writable sample_world) (os sample_world)
         (stdout sample_world ++ [{["A"]}]),
       Returns ()).
Proof.
  assert (reads sample_world (eph_in "s")
            (file_lines (universal_newlines sample_eph))) as H1
    by (apply sample_world_reads; vm_compute; reflexivity).
  assert (reads sample_world (orbit_in "s")
            (file_lines (universal_newlines sample_orbit))) as H2
    by (apply sample_world_reads; vm_compute; reflexivity).
  assert (reads sample_world (physical_in "s")
            (file_lines (universal_newlines sample_physical))) as H3
    by (apply sample_world_reads; vm_compute; reflexivity).
  assert (∀ path, path ∈ output_names "s" 1 →
                  writable sample_world path = true) as H4 by done.
  split_and!; [done..|].
  destruct (main_succeeds "s" 1 sample_world _ _ _ H1 H2 H3 H4)
    as (Hmain & _ & _).
  rewrite Hmain.
  assert (collected 1 (file_lines (universal_newlines sample_eph)) = {["A"]})
    as -> by (vm_compute; reflexivity).
  reflexivity.
Defined.

(** X15 (no driver file).  When the [_eph] input does not exist, the
    driver ends with [FileNotFoundError] for it and has done nothing: no
    file is created or changed and nothing is printed. *)
Theorem main_without_eph (input_prefix : string) (num : Z) (w : world) :
  files w !! eph_in input_prefix = None →
  main input_prefix num w
    = (w, Raises (FileNotFoundError (eph_in input_prefix))).
Proof.
  intros Hnone. unfold main. apply bind_raises.
  by apply get_ids_file_missing.
Qed.

Lemma main_without_eph_witness :
  files (World ∅ (λ _, true) (λ _, true) posix []) !! eph_in "s" = None ∧
  main "s" 1 (World ∅ (λ _, true) (λ _, true) posix [])
    = (World ∅ (λ _, true) (λ _, true) posix [],
       Raises (FileNotFoundError (eph_in "s"))).
Proof.
  split; [apply lookup_empty|].
  apply (main_without_eph "s" 1 (World ∅ (λ _, true) (λ _, true) posix [])).
  apply lookup_empty.
Defined.

(** X16 (a run that fails half way).  When the [_eph] input exists, can
    be opened for reading and is read to its end without a decoding error,
    and its output can be written, but the [_orbit] input does not exist,
    the driver ends with [FileNotFoundError] for the [_orbit] input, and
    what it did before stays: the set is printed and the [_eph] output is
    written; the two other outputs are not touched. *)
Theorem main_without_orbit (input_prefix : string) (num : Z) (w : world)
    (eph : list string) :
  reads w (eph_in input_prefix) eph →
  writable w (eph_out input_prefix num) = true →
  files w !! orbit_in input_prefix = None →
  main input_prefix num w
    = (World
         (<[eph_out input_prefix num
              := written w (kept (collected num eph) eph)]> (files w))
         (readable w) (writable w) (os w)
         (stdout w ++ [collected num eph]),
       Raises (FileNotFoundError (orbit_in input_prefix))).
Proof.
  intros Heph Hwr Horbit.
  pose proof (in_out_names_differ input_prefix num) as Hne.
  rewrite (main_collects _ _ _ eph) by done.
  erewrite bind_returns.
  2:{ apply (copy_subset_file_reads _ _ _ _ eph); simpl; [|..|done].
      - apply Hne; name_in_list.
      - by apply (reads_agree w). }
  apply bind_raises. apply copy_subset_file_missing. simpl.
  rewrite lookup_insert_ne; [done|]. apply not_eq_sym.
  apply Hne; name_in_list.
Qed.

Lemma main_without_orbit_witness :
  reads (World {["s_eph.csv" := sample_eph]} (λ _, true) (λ _, true) posix [])
    (eph_in "s") (file_lines (universal_newlines sample_eph)) ∧
  writable
    (World {["s_eph.csv" := sample_eph]} (λ _, true) (λ _, true) posix [])
    (eph_out "s" 1) = true ∧
  files (World {["s_eph.csv" := sample_eph]} (λ _, true) (λ _, true) posix [])
    !! orbit_in "s" = None ∧
  main "s" 1
    (World {["s_eph.csv" := sample_eph]} (λ _, true) (λ _, true) posix [])
    = (World
         (<[eph_out "s" 1
              := "id,t" +:+ nl +:+ "A,1" +:+ nl +:+ "A,3" +:+ nl]>
            {["s_eph.csv" := sample_eph]})
         (λ _, true) (λ _, true) posix ([] ++ [{["A"]}]),
       Raises (FileNotFoundError (orbit_in "s"))).
Proof.
  assert (reads
    (World {["s_eph.csv" := sample_eph]} (λ _, true) (λ _, true) posix [])
    (eph_in "s") (file_lines (universal_newlines sample_eph))) as H1.
  { exists sample_eph. split_and!; [vm_compute; reflexivity|done..]. }
  assert (files
    (World {["s_eph.csv" := sample_eph]} (λ _, true) (λ _, true) posix [])
    !! orbit_in "s" = None) as H3 by (vm_compute; reflexivity).
  split_and!; [done..|].
  rewrite (main_without_orbit "s" 1 _ _ H1 eq_refl H3).
  assert (collected 1 (file_lines (universal_newlines sample_eph)) = {["A"]})
    as -> by (vm_compute; reflexivity).
  reflexivity.
Defined.

(** What a run of the driver does, from the world [w]: it writes [delta]
    over the files and prints [printed]. *)
Lemma main_run input_prefix num w :
  ∃ (delta : gmap string string) (printed : list (gset string))
    (r : outcome unit),
    (∀ path, is_Some (delta !! path) → path ∈ output_names input_prefix num) ∧
    (∀ path, path ∈ input_names input_prefix → delta !! path = None) ∧
    ∀ w', same_inputs (input_names input_prefix) w w' →
      main input_prefix num w'
        = (World (delta ∪ files w') (readable w') (writable w') (os w')
                 (stdout w' ++ printed), r).
Proof.
  destruct (confined_main input_prefix num w)
    as (delta & printed & r & Hdom & Hrun).
  exists delta, printed, r. split_and!; [done| |done].
  intros path Hpath. destruct (delta !! path) eqn:E; [|done].
  destruct (in_out_names_differ input_prefix num path path); [done| |done].
  apply Hdom. by rewrite E.
Qed.

(** X17 (only the outputs are written).  A run of the driver, whether it
    ends normally or with an exception, leaves every file that is not one
    of its three outputs as it was, the three inputs among them, and it
    changes no permission. *)
Theorem main_writes_outputs_only (input_prefix : string) (num : Z)
    (w : world) (path : string) :
  path ∉ output_names input_prefix num →
  files (main input_prefix num w).1 !! path = files w !! path ∧
  writable (main input_prefix num w).1 = writable w.
Proof.
  intros Hpath.
  destruct (main_run input_prefix num w)
    as (delta & printed & r & Hdom & _ & Hrun).
  rewrite (Hrun w) by apply same_inputs_refl. simpl. split; [|done].
  apply lookup_union_r. destruct (delta !! path) eqn:E; [|done].
  destruct Hpath. apply Hdom. by rewrite E.
Qed.

Lemma main_writes_outputs_only_witness :
  ("notes.txt" ∉ output_names "s" 1) ∧
  files (main "s" 1 sample_world).1 !! "notes.txt"
    = files sample_world !! "notes.txt" ∧
  writable (main "s" 1 sample_world).1 = writable sample_world.
Proof.
  assert ("notes.txt" ∉ output_names "s" 1) as Hpath.
  { unfold output_names. rewrite !elem_of_cons, elem_of_nil.
    intros [H|[H|[H|[]]]]; vm_compute in H; discriminate H. }
  split; [done|].
  by apply (main_writes_outputs_only "s" 1 sample_world "notes.txt").
Defined.

(** X18 (running the driver again).  A second run of the driver with the
    same arguments, right after the first, ends as the first did and
    leaves every file as the first left it. *)
Theorem main_twice (input_prefix : string) (num : Z) (w : world) :
  files (main input_prefix num (main input_prefix num w).1).1
    = files (main input_prefix num w).1 ∧
  (main input_prefix num (main input_prefix num w).1).2
    = (main input_prefix num w).2.
Proof.
  destruct (main_run input_prefix num w)
    as (delta & printed & r & Hdom & Hins & Hrun).
  rewrite (Hrun w) by apply same_inputs_refl. simpl.
  rewrite Hrun.
  - simpl. split; [|done].
    by rewrite (assoc_L (∪)), (idemp (∪) delta).
  - split_and!; [|done..]. intros path Hpath. simpl.
    rewrite lookup_union_r; [done|]. by apply Hins.
Qed.

(** X19 (only the inputs are read).  From two worlds on the same platform
    that hold the same three input files, let the program read the same
    ones of them and grant the same paths for writing, whatever else they
    hold, the driver writes the same bytes to the same output paths,
    prints the same set and ends the same way. *)
Theorem main_reads_inputs_only (input_prefix : string) (num : Z)
    (w w' : world) :
  same_inputs (input_names input_prefix) w w' →
  ∃ (delta : gmap string string) (printed : list (gset string))
    (r : outcome unit),
    (∀ path, is_Some (delta !! path) → path ∈ output_names input_prefix num) ∧
    main input_prefix num w
      = (World (delta ∪ files w) (readable w) (writable w) (os w)
               (stdout w ++ printed), r) ∧
    main input_prefix num w'
      = (World (delta ∪ files w') (readable w') (writable w') (os w')
               (stdout w' ++ printed), r).
Proof.
  intros Hsame.
  destruct (main_run input_prefix num w)
    as (delta & printed & r & Hdom & _ & Hrun).
  exists delta, printed, r. split_and!; [done| |by apply Hrun].
  apply Hrun, same_inputs_refl.
Qed.

Lemma main_reads_inputs_only_witness :
  same_inputs (input_names "s") sample_world
    (World (delete "notes.txt" (files sample_world)) (λ _, true) (λ _, true)
           posix [{["Z"]}]) ∧
  ∃ (delta : gmap string string) (printed : list (gset string))
    (r : outcome unit),
    (∀ path, is_Some (delta !! path) → path ∈ output_names "s" 1) ∧
    main "s" 1 sample_world
      = (World (delta ∪ files sample_world) (readable sample_world)
               (writable sample_world) (os sample_world)
               (stdout sample_world ++ printed), r) ∧
    main "s" 1
      (World (delete "notes.txt" (files sample_world)) (λ _, true)
             (λ _, true) posix [{["Z"]}])
      = (World (delta ∪ delete "notes.txt" (files sample_world)) (λ _, true)
               (λ _, true) posix ([{["Z"]}] ++ printed), r).
Proof.
  assert (same_inputs (input_names "s") sample_world
    (World (delete "notes.txt" (files sample_world)) (λ _, true) (λ _, true)
           posix [{["Z"]}]))
    as Hsame.
  { split_and!; [|done..]. intros path Hpath. simpl.
    rewrite lookup_delete_ne; [done|]. intros <-.
    unfold input_names in Hpath. rewrite !elem_of_cons, elem_of_nil in Hpath.
    destruct Hpath as [H|[H|[H|[]]]]; vm_compute in H; discriminate H. }
  split; [done|].
  by apply (main_reads_inputs_only "s" 1 sample_world).
Defined.

(** * The claims and properties stated on files *)

(** ** Lines after the target *)

(** Once the target is reached, lines after those read are not looked
    at. *)
Lemma get_ids_stops_lines (ifile extra : list string) (num : Z)
    (ids : gset string) :
  get_ids ifile num = Ok ids →
  Z.of_nat (size ids) = num →
  get_ids (ifile ++ extra) num = Ok ids.
Proof.
  intros Hrun Hsize. destruct ifile as [|header data].
  - rewrite get_ids_nil in Hrun. injection Hrun as <-.
    rewrite size_empty in Hsize. subst num. simpl.
    destruct extra as [|header data]; [done|].
    by rewrite get_ids_take, take_0.
  - rewrite get_ids_take in Hrun. injection Hrun as <-.
    rewrite take_set_size in Hsize by apply first_ids_NoDup.
    simpl. rewrite get_ids_take. do 2 f_equal.
    unfold first_ids. rewrite fmap_app, first_seen_app.
    apply take_app_le. fold (first_ids data). lia.
Qed.

(** X4 (nothing is read past the target).  When [get_ids] returns a set
    with as many elements as the target for a file that is empty or whose
    last line ends with a line terminator, bytes added at the end of the
    file do not change its result: this holds of the lines read from the
    longer file, and of the call on a path that holds the longer file,
    when that file can be opened for reading and is decoded. *)
Theorem get_ids_stops (raw extra : string) (num : Z) (ids : gset string) :
  ends_lines (universal_newlines raw) = true →
  get_ids (file_lines (universal_newlines raw)) num = Ok ids →
  Z.of_nat (size ids) = num →
  get_ids (file_lines (universal_newlines (raw +:+ extra))) num = Ok ids ∧
  ∀ (input_file : string) (w : world),
    files w !! input_file = Some (raw +:+ extra) →
    readable w input_file = true →
    decode_error (os w) (raw +:+ extra) = None →
    get_ids_file input_file num w = (w, Returns ids).
Proof.
  intros Hends Hrun Hsize.
  assert (get_ids (file_lines (universal_newlines (raw +:+ extra))) num
          = Ok ids) as Hlonger.
  { destruct (universal_newlines_app raw extra) as [extra' ->].
    rewrite file_lines_app by done. by apply get_ids_stops_lines. }
  split; [done|]. intros input_file w Hfile Hread Hdecode.
  rewrite (get_ids_file_reads _ _ _
             (file_lines (universal_newlines (raw +:+ extra)))).
  - pose proof (get_ids_collected
                  (file_lines (universal_newlines (raw +:+ extra))) num) as H.
    rewrite Hlonger in H. by injection H as <-.
  - exists (raw +:+ extra). split_and!; [done..|].
    unfold read_text. by rewrite Hdecode.
Qed.

Lemma get_ids_stops_witness :
  ends_lines
    (universal_newlines
       ("id,t" +:+ nl +:+ "A,1" +:+ String "013" nl +:+ "B,2" +:+ nl)) = true ∧
  get_ids
    (file_lines
       (universal_newlines
          ("id,t" +:+ nl +:+ "A,1" +:+ String "013" nl +:+ "B,2" +:+ nl))) 2
    = Ok {["A"; "B"]} ∧
  Z.of_nat (size ({["A"; "B"]} : gset string)) = 2 ∧
  get_ids
    (file_lines
       (universal_newlines
          (("id,t" +:+ nl +:+ "A,1" +:+ String "013" nl +:+ "B,2" +:+ nl)
             +:+ ("C,3" +:+ nl +:+ "D,4")))) 2
    = Ok {["A"; "B"]}.
Proof.
  assert (ends_lines
    (universal_newlines
       ("id,t" +:+ nl +:+ "A,1" +:+ String "013" nl +:+ "B,2" +:+ nl)) = true)
    as H1 by (vm_compute; reflexivity).
  assert (get_ids
    (file_lines
       (universal_newlines
          ("id,t" +:+ nl +:+ "A,1" +:+ String "013" nl +:+ "B,2" +:+ nl))) 2
    = Ok {["A"; "B"]}) as H2 by (vm_compute; reflexivity).
  assert (Z.of_nat (size ({["A"; "B"]} : gset string)) = 2) as H3
    by (vm_compute; reflexivity).
  split_and!; [done..|].
  exact (proj1 (get_ids_stops _ ("C,3" +:+ nl +:+ "D,4") 2 {["A"; "B"]}
                  H1 H2 H3)).
Defined.

(** ** The empty input file *)

Lemma raw_lines_nil_inv raw : raw_lines raw = [] → raw = EmptyString.
Proof.
  destruct raw as [|c rest]; [done|]. simpl.
  destruct (Ascii.eqb c "010"); [done|].
  destruct (Ascii.eqb c "013").
  - destruct rest as [|c' rest']; [done|]. by destruct (Ascii.eqb c' "010").
  - by destruct (raw_lines rest).
Qed.

(** C10 (empty input).  If the input file holds no line, which is the
    case of the empty file only, and it can be opened for reading and the
    destination for writing, [copy_subset] runs its loop on no line and
    writes nothing: the call ends normally and the destination exists
    afterwards and is empty, whatever it held before, and whether it
    existed or not.  No header is made up.  Nothing else changes. *)
Theorem copy_subset_empty_input (input_file output_file : string)
    (ids : gset string) (w : world) (raw : string) :
  files w !! input_file = Some raw →
  readable w input_file = true →
  writable w output_file = true →
  raw_lines raw = [] →
  raw = EmptyString ∧
  (∀ previous,
     copy_subset (file_lines (universal_newlines raw)) previous ids
       = Ok ([], ids)) ∧
  copy_subset_file input_file output_file ids w
    = (World (<[output_file := EmptyString]> (files w)) (readable w)
             (writable w) (os w) (stdout w),
       Returns ids) ∧
  files (copy_subset_file input_file output_file ids w).1 !! output_file
    = Some EmptyString ∧
  raw_lines EmptyString = [].
Proof.
  intros Hfile Hread Hwr Hlines.
  assert (raw = EmptyString) as ->.
  { by apply raw_lines_nil_inv. }
  assert (copy_subset_file input_file output_file ids w
          = (World (<[output_file := EmptyString]> (files w)) (readable w)
                   (writable w) (os w) (stdout w),
             Returns ids)) as Hrun.
  { rewrite copy_subset_file_eval, Hfile, Hread, Hwr.
    assert (default EmptyString
              (<[output_file := EmptyString]> (files w) !! input_file)
            = EmptyString) as ->.
    { destruct (decide (output_file = input_file)) as [->|Hne].
      - by rewrite lookup_insert_eq.
      - by rewrite lookup_insert_ne, Hfile. }
    by rewrite read_text_empty. }
  split_and!; [done| |done| |done].
  - intros previous. apply copy_subset_nil.
  - rewrite Hrun. apply lookup_insert_eq.
Qed.

Lemma copy_subset_empty_input_witness :
  files (World {["in.csv" := EmptyString; "out.csv" := "id,t" +:+ nl]}
               (λ _, true) (λ _, true) posix [])
    !! "in.csv" = Some EmptyString ∧
  raw_lines EmptyString = [] ∧
  copy_subset_file "in.csv" "out.csv" {["A"]}
    (World {["in.csv" := EmptyString; "out.csv" := "id,t" +:+ nl]}
           (λ _, true) (λ _, true) posix [])
  = (World (<["out.csv" := EmptyString]>
              {["in.csv" := EmptyString; "out.csv" := "id,t" +:+ nl]})
           (λ _, true) (λ _, true) posix [],
     Returns {["A"]}).
Proof.
  assert (files
    (World {["in.csv" := EmptyString; "out.csv" := "id,t" +:+ nl]}
           (λ _, true) (λ _, true) posix [])
    !! "in.csv" = Some EmptyString) as Hfile by (vm_compute; reflexivity).
  split_and!; [done..|].
  exact (proj1 (proj2 (proj2
    (copy_subset_empty_input "in.csv" "out.csv" {["A"]}
       (World {["in.csv" := EmptyString; "out.csv" := "id,t" +:+ nl]}
              (λ _, true) (λ _, true) posix [])
       EmptyString Hfile eq_refl eq_refl eq_refl)))).
Defined.

(** ** The first line *)

Lemma universal_newlines_id text :
  no_cr text = true → universal_newlines text = text.
Proof.
  induction text as [|c rest IH]; [done|].
  intros [Hc Hrest]%andb_prop. apply negb_true_iff in Hc.
  simpl. rewrite Hc. by rewrite IH.
Qed.

Lemma write_newlines_id text : write_newlines false text = text.
Proof.
  induction text as [|c rest IH]; [done|]. simpl.
  by rewrite andb_false_r, IH.
Qed.

(** The lines of the bytes written are the lines written, each with its
    newline stored as the line separator. *)
Lemma raw_lines_write b text :
  no_cr text = true →
  raw_lines (write_newlines b text) = write_newlines b <$> file_lines text.
Proof.
  induction text as [|c rest IH]; [done|].
  intros [Hc Hrest]%andb_prop. apply negb_true_iff in Hc.
  specialize (IH Hrest). simpl file_lines. simpl write_newlines.
  destruct (Ascii.eqb_spec c "010") as [->|Hlf].
  - destruct b; simpl; by rewrite IH.
  - apply Ascii.eqb_neq in Hlf. simpl.
    rewrite Hlf, Hc, IH.
    destruct (file_lines rest) as [|line lines]; simpl; by rewrite Hlf.
Qed.

(** The first line of the bytes [copy_subset] leaves in its output, for
    the lines [header :: rest] that reached its loop. *)
Lemma written_header b ids header rest :
  lines_wf (header :: rest) →
  Forall (λ line, no_cr line = true) (header :: rest) →
  head (raw_lines
          (write_newlines b (file_text (kept ids (header :: rest)))))
    = Some (write_newlines b header) ∧
  head (file_lines
          (universal_newlines
             (write_newlines b (file_text (kept ids (header :: rest))))))
    = Some header.
Proof.
  intros Hwf Hcr.
  change (kept ids (header :: rest))
    with (header :: filter (retained ids) rest).
  assert (lines_wf (header :: filter (retained ids) rest)) as Hwf'
    by by apply lines_wf_header_filter.
  assert (no_cr (file_text (header :: filter (retained ids) rest)) = true)
    as Hcr'.
  { apply no_cr_file_text.
    apply Forall_cons in Hcr as [Hheader Hrest].
    constructor; [done|]. apply Forall_forall.
    intros line [_ Hline]%list_elem_of_filter.
    rewrite Forall_forall in Hrest. by apply Hrest. }
  split.
  - rewrite raw_lines_write by done. by rewrite file_lines_text.
  - rewrite universal_write_newlines by done. by rewrite file_lines_text.
Qed.

(** C3, as the specification has it, does not hold: on a platform whose
    line separator is LF, the first line of the input ["in.csv"] is
    ["id,t"] followed by CR LF, and the first line of the output is
    ["id,t"] followed by LF. *)
Lemma copy_subset_header_crlf :
  files crlf_world !! "in.csv" = Some crlf_file ∧
  head (raw_lines crlf_file) = Some ("id,t" +:+ String "013" nl) ∧
  files (copy_subset_file "in.csv" "out.csv" {["A"]} crlf_world).1
    !! "out.csv" = Some ("id,t" +:+ nl +:+ "A,1" +:+ nl) ∧
  head (raw_lines ("id,t" +:+ nl +:+ "A,1" +:+ nl)) = Some ("id,t" +:+ nl) ∧
  "id,t" +:+ nl ≠ "id,t" +:+ String "013" nl.
Proof.
  split_and!; [vm_compute; reflexivity..|].
  intros H. vm_compute in H. discriminate H.
Qed.

(** C3 (the header line), amended.  For every input of which at least
    one line reaches the loop and every ID set, the first line
    [copy_subset] writes is the first line it read.  It is written
    whatever the set holds: also for the empty set, for which nothing else
    is written, and the iteration that writes it gives the same state for
    every set of IDs apart from the set itself.  On named files, the line
    read is the first line of the input file with its terminator, CR LF,
    CR or LF, read as LF, and the first line of the output file is that
    line with the LF stored as the line separator of the platform; read
    back, it is the line that was read.  It is the first line of the input
    byte for byte when that line holds no CR and the line separator is
    LF. *)
Theorem copy_subset_header (header : string) (rest : list string)
    (previous : option string) (ids : gset string) :
  (∃ data,
     copy_subset (header :: rest) previous ids = Ok (header :: data, ids) ∧
     (lines_wf (header :: rest) →
      head (file_lines (file_text (header :: data))) = Some header)) ∧
  copy_subset (header :: rest) previous ∅ = Ok ([header], ∅) ∧
  (∀ ofile, copy_subset_body header (Copy ofile true ids)
            = Ok (Continue (Copy (ofile ++ [header]) false ids))) ∧
  (∀ (input_file output_file raw : string) (failed : bool) (w : world),
     input_file ≠ output_file →
     files w !! input_file = Some raw →
     readable w input_file = true →
     writable w output_file = true →
     read_text (os w) raw = (header :: rest, failed) →
     ∃ first out : string,
       head (raw_lines raw) = Some first ∧
       header = universal_newlines first ∧
       files (copy_subset_file input_file output_file ids w).1
         !! output_file = Some out ∧
       head (raw_lines out) = Some (write_newlines (crlf (os w)) header) ∧
       head (file_lines (universal_newlines out)) = Some header ∧
       (no_cr first = true → crlf (os w) = false →
        head (raw_lines out) = Some first)).
Proof.
  split_and!.
  - exists (filter (retained ids) rest). split; [apply copy_subset_cons|].
    intros Hwf. rewrite file_lines_text; [done|].
    by apply lines_wf_header_filter.
  - rewrite copy_subset_cons. do 2 f_equal.
    induction rest as [|line rest IH]; [done|].
    rewrite filter_cons_False; [done|]. unfold retained. set_solver.
  - intros ofile. apply copy_subset_body_header.
  - intros input_file output_file raw failed w Hne Hfile Hread Hwr Hstream.
    pose proof (read_text_wf (os w) raw) as Hwf.
    pose proof (read_text_no_cr (os w) raw) as Hcr.
    destruct (read_text_take (os w) raw) as (n & Htake & _).
    rewrite Hstream in Hwf, Hcr, Htake. simpl in Hwf, Hcr, Htake.
    rewrite file_lines_universal in Htake.
    destruct (raw_lines raw) as [|first lines] eqn:Hraw.
    { rewrite fmap_nil, take_nil in Htake. discriminate Htake. }
    destruct n as [|n]; [discriminate Htake|].
    rewrite fmap_cons in Htake. simpl in Htake.
    injection Htake as Hheader _.
    destruct (written_header (crlf (os w)) ids header rest Hwf Hcr)
      as [Hfirst Hback].
    exists first,
      (write_newlines (crlf (os w)) (file_text (kept ids (header :: rest)))).
    split_and!; [done|done| |done|done|].
    + rewrite copy_subset_file_eval, Hfile, Hread, Hwr.
      rewrite lookup_insert_ne, Hfile by done. simpl default.
      rewrite Hstream. simpl. apply lookup_insert_eq.
    + intros Hno Hlf. rewrite Hfirst, Hlf, write_newlines_id, Hheader.
      by rewrite universal_newlines_id.
Qed.

Lemma copy_subset_header_witness :
  "in.csv" ≠ "out.csv" ∧
  files crlf_world !! "in.csv" = Some crlf_file ∧
  read_text (os crlf_world) crlf_file
    = (("id,t" +:+ nl) :: ["A,1" +:+ nl], false) ∧
  ∃ first out : string,
    head (raw_lines crlf_file) = Some first ∧
    "id,t" +:+ nl = universal_newlines first ∧
    files (copy_subset_file "in.csv" "out.csv" {["A"]} crlf_world).1
      !! "out.csv" = Some out ∧
    head (raw_lines out)
      = Some (write_newlines (crlf (os crlf_world)) ("id,t" +:+ nl)) ∧
    head (file_lines (universal_newlines out)) = Some ("id,t" +:+ nl) ∧
    (no_cr first = true → crlf (os crlf_world) = false →
     head (raw_lines out) = Some first).
Proof.
  assert ("in.csv" ≠ "out.csv") as Hne by (intros H; discriminate H).
  assert (files crlf_world !! "in.csv" = Some crlf_file) as Hfile
    by (vm_compute; reflexivity).
  assert (read_text (os crlf_world) crlf_file
          = (("id,t" +:+ nl) :: ["A,1" +:+ nl], false)) as Hstream
    by (vm_compute; reflexivity).
  split_and!; [done..|].
  exact (proj2 (proj2 (proj2
    (copy_subset_header ("id,t" +:+ nl) ["A,1" +:+ nl] None {["A"]})))
    "in.csv" "out.csv" crlf_file false crlf_world
    Hne Hfile eq_refl eq_refl Hstream).
Defined.
